(** * ratelimiter-app: the admission engine of [pkg/service]

    A shallow embedding of the service of package [pkg/service] (type
    [Service] and its methods [Acquire], [acquireTokenBucket],
    [acquireLeakyBucket], [Status], [statusRedis], [Metrics], [SetLimit],
    [getLimitForKey], [NewService]) and of the part of the Redis sorted-set
    interface those methods drive.

    Conventions.
    - Go [int], [int64] and [time.Duration] values are integers of [Z]; where
      the source does arithmetic on them the 64-bit wrap-around is written out.
    - A [time.Time] is the number of nanoseconds on the clock that produced it;
      [time.Now()] is an input of every call.
    - The Redis path converts the clock to seconds as a [float64].  Seconds are
      held here exactly, as a count of nanoseconds; the binary rounding of
      [float64] is not represented.  The decimal rounding of
      [fmt.Sprintf("%f", _)] (six fractional digits) is. *)

From Stdlib Require Import ZArith Ascii String DecimalString.
From stdpp Require Import gmap strings list fin_maps.

Local Open Scope string_scope.
Local Open Scope list_scope.
Local Open Scope Z_scope.

(** ** 64-bit integers *)

Module Int64.
Definition min_int : Z := - 2 ^ 63.
Definition max_int : Z := 2 ^ 63 - 1.

(** Two's complement wrap-around of Go's signed arithmetic. *)
Definition wrap (z : Z) : Z := (z + 2 ^ 63) mod 2 ^ 64 - 2 ^ 63.

(** Saturation, as [time.Time.Sub] does it. *)
Definition sat (z : Z) : Z :=
  if z <? min_int then min_int else if max_int <? z then max_int else z.

Definition in_range (z : Z) : Prop := min_int <= z <= max_int.

(** [x++] on an [int64]. *)
Definition incr (x : Z) : Z := wrap (x + 1).

(** [a / b] on [int64], for [b <> 0]: truncated division. *)
Definition quot (a b : Z) : Z := wrap (Z.quot a b).
End Int64.

(** ** Time *)

Module Time.
(** [now.Sub(t)]: the duration [now - t], saturated to the range of
    [time.Duration]. *)
Definition Sub (now t : Z) : Z := Int64.sat (now - t).

Definition Millisecond : Z := 1000000.
Definition Second : Z := 1000000000.
Definition Minute : Z := 60 * Second.
End Time.

(** ** Dynamic values: Go's [interface{}] as far as the service meets it *)

Inductive value : Type :=
| VNil
| VBool (b : bool)
| VInt (i : Z)
| VString (s : string)
| VRatio (num den : Z).   (* a float64 quotient [num / den], not rounded *)

(** [v.(string)] with the comma-ok form. *)
Definition as_string (v : option value) : string * bool :=
  match v with
  | Some (VString s) => (s, true)
  | _ => ("", false)
  end.

(** [v.(bool)] with the comma-ok form, as the tests read the result. *)
Definition as_bool (v : option value) : bool * bool :=
  match v with
  | Some (VBool b) => (b, true)
  | _ => (false, false)
  end.

(** ** Decimal rendering *)

(** [itoa]: [fmt.Sprintf("%d", i)]. *)
Definition itoa (i : Z) : string := NilZero.string_of_int (Z.to_int i).

(** [fmt.Sprintf("%f", x)] for [x] seconds held as [x] nanoseconds: the
    decimal with six fractional digits nearest to [x], ties to even.  The
    string is identified with the number of microseconds it denotes (the
    service prints clock readings and window starts; the sign of a negative
    value that prints as zero is not kept). *)
Definition Sprintf_f (x : Z) : Z :=
  let q := x `div` 1000 in
  let r := x `mod` 1000 in
  if r <? 500 then q
  else if 500 <? r then q + 1
  else if Z.even q then q else q + 1.

(** The score a Redis server reads from a ["%f"] string, in nanoseconds. *)
Definition parse_f (u : Z) : Z := 1000 * u.

(** ** The Redis sorted-set interface *)

Module Redis.
(** One key: the sorted set, member to score, and the deadline set by the
    last EXPIRE (on the clock of the calls). *)
Record zkey : Type := ZKey {
  zset : gmap Z Z;
  expire_at : option Z
}.

Abbreviation db := (gmap string zkey).

Definition zset_of (d : db) (key : string) : gmap Z Z :=
  match d !! key with
  | Some k => zset k
  | None => ∅
  end.

Definition expiry_of (d : db) (key : string) : option Z :=
  d !! key ≫= expire_at.

(** A key whose set became empty does not exist. *)
Definition put_zset (d : db) (key : string) (z : gmap Z Z) : db :=
  if decide (z = ∅) then delete key d
  else <[key := ZKey z (expiry_of d key)]> d.

Inductive cmd : Type :=
| ZRemRangeByScore (key : string) (min max : Z)
| ZAdd (key : string) (score member : Z)
| ZCard (key : string)
| Expire (key : string) (ttl : Z).

Definition in_score_range (min max : Z) (e : Z * Z) : Prop :=
  min <= e.2 <= max.

#[global] Instance in_score_range_dec min max e :
  Decision (in_score_range min max e).
Proof. unfold in_score_range. apply _. Defined.

(** One command at server time [now]; the integer reply of each. *)
Definition exec_cmd (now : Z) (d : db) (c : cmd) : db * Z :=
  match c with
  | ZRemRangeByScore key min max =>
      let z := zset_of d key in
      let z' := filter (λ e, ¬ in_score_range min max e) z in
      (put_zset d key z', Z.of_nat (size z) - Z.of_nat (size z'))
  | ZAdd key score member =>
      let z := zset_of d key in
      (put_zset d key (<[member := score]> z),
       match z !! member with Some _ => 0 | None => 1 end)
  | ZCard key => (d, Z.of_nat (size (zset_of d key)))
  | Expire key ttl =>
      match d !! key with
      | Some k =>
          if ttl <=? 0 then (delete key d, 1)   (* a past deadline deletes *)
          else (<[key := ZKey (zset k) (Some (now + ttl))]> d, 1)
      | None => (d, 0)
      end
  end.

Fixpoint exec_cmds (now : Z) (d : db) (cs : list cmd) : db * list Z :=
  match cs with
  | [] => (d, [])
  | c :: cs' =>
      let '(d1, r) := exec_cmd now d c in
      let '(d2, rs) := exec_cmds now d1 cs' in
      (d2, r :: rs)
  end.

(** Keys whose deadline has passed are gone when the server is next
    reached. *)
Definition live (now : Z) (k : zkey) : Prop :=
  match expire_at k with
  | Some t => now < t
  | None => True
  end.

#[global] Instance live_dec now k : Decision (live now k).
Proof. unfold live. destruct (expire_at k); apply _. Defined.

Definition evict (now : Z) (d : db) : db :=
  filter (λ e, live now e.2) d.

(** What the network did to one [Exec] of a transaction pipeline. *)
Inductive exec_result : Type :=
| ExecOk
| ExecErr (applied : bool).   (* error; the server ran the block or not *)

(** [pipe.Exec(ctx)]: the queued commands run as one MULTI/EXEC block.
    The replies are [None] when [Exec] returns an error. *)
Definition Exec (now : Z) (net : exec_result) (d : db) (cs : list cmd)
  : db * option (list Z) :=
  match net with
  | ExecOk =>
      let '(d', rs) := exec_cmds now (evict now d) cs in (d', Some rs)
  | ExecErr true => ((exec_cmds now (evict now d) cs).1, None)
  | ExecErr false => (d, None)
  end.
End Redis.

(** ** The service *)

Definition TokenBucket : Z := 0.
Definition LeakyBucket : Z := 1.

Record Service : Type := mkService {
  userCalls : gmap string (list Z);
  limit : Z;
  window : Z;
  limits : gmap string Z;
  redisClient : option string;      (* the address the client dials *)
  useRedis : bool;
  successfulAcquires : Z;
  failedAcquires : Z;
  requestsLastSecond : Z;
  redisLatencyMicros : Z;
  algorithm : Z
}.

(** Field updates. *)
Definition set_userCalls (s : Service) (u : gmap string (list Z)) : Service :=
  mkService u (limit s) (window s) (limits s) (redisClient s) (useRedis s)
    (successfulAcquires s) (failedAcquires s) (requestsLastSecond s)
    (redisLatencyMicros s) (algorithm s).

Definition set_limits (s : Service) (l : gmap string Z) : Service :=
  mkService (userCalls s) (limit s) (window s) l (redisClient s) (useRedis s)
    (successfulAcquires s) (failedAcquires s) (requestsLastSecond s)
    (redisLatencyMicros s) (algorithm s).

(** [s.successfulAcquires++] *)
Definition incr_successful (s : Service) : Service :=
  mkService (userCalls s) (limit s) (window s) (limits s) (redisClient s)
    (useRedis s) (Int64.incr (successfulAcquires s)) (failedAcquires s)
    (requestsLastSecond s) (redisLatencyMicros s) (algorithm s).

(** [s.failedAcquires++] *)
Definition incr_failed (s : Service) : Service :=
  mkService (userCalls s) (limit s) (window s) (limits s) (redisClient s)
    (useRedis s) (successfulAcquires s) (Int64.incr (failedAcquires s))
    (requestsLastSecond s) (redisLatencyMicros s) (algorithm s).

(** [NewService]: [addr] is the dialled address ([REDIS_ADDR], or
    ["localhost:6379"] when it is empty), [ping_ok] the result of the ping. *)
Definition NewService (algorithm : Z) (env_addr : string) (ping_ok : bool)
  : Service :=
  let addr := if decide (env_addr = "") then "localhost:6379" else env_addr in
  if ping_ok then
    mkService ∅ 5 Time.Minute ∅ (Some addr) true 0 0 0 0 algorithm
  else
    mkService ∅ 5 Time.Minute ∅ None false 0 0 0 0 algorithm.

Definition SetLimit (s : Service) (key : string) (lim : Z) : Service :=
  set_limits s (<[key := lim]> (limits s)).

Definition getLimitForKey (s : Service) (key : string) : Z :=
  match limits s !! key with
  | Some l => l
  | None => limit s      (* global default *)
  end.

(** The result maps of [Acquire]. *)
Definition allow_result : gmap string value :=
  {[ "allowed" := VBool true ]}.

Definition deny_result (err : string) : gmap string value :=
  <[ "allowed" := VBool false ]> {[ "error" := VString err ]}.

(** What a call of a method does: it returns, or the goroutine panics. *)
Inductive outcome (A : Type) : Type :=
| Returned (a : A)
| Panicked (msg : string).
Arguments Returned {A} a.
Arguments Panicked {A} msg.

(** [sync.Map.LoadOrStore(key, v)]: the value in the map and the map after. *)
Definition LoadOrStore (m : gmap string (list Z)) (key : string) (v : list Z)
  : list Z * gmap string (list Z) :=
  match m !! key with
  | Some calls => (calls, m)
  | None => (v, <[key := v]> m)
  end.

(** The loop that keeps the calls inside the window. *)
Definition recent (now win : Z) (calls : list Z) : list Z :=
  filter (λ t, Time.Sub now t < win) calls.

Definition redis_active (s : Service) : bool :=
  useRedis s && bool_decide (is_Some (redisClient s)).

(** The transaction of [acquireTokenBucket]. *)
Definition acquire_pipeline (s : Service) (now : Z) (key : string)
  : list Redis.cmd :=
  let redisKey := "ratelimit:" +:+ key in
  let windowStart := now - window s in
  [ Redis.ZRemRangeByScore redisKey 0 (parse_f (Sprintf_f windowStart));
    Redis.ZAdd redisKey now (Sprintf_f now);
    Redis.ZCard redisKey;
    Redis.Expire redisKey (window s) ].

(** [acquireTokenBucket].  When [Exec] returns no error, no queued command
    carries one, so the second check, on [zcard.Result()], never fires. *)
Definition acquireTokenBucket (s : Service) (d : Redis.db) (now : Z)
    (net : Redis.exec_result) (key : string)
  : Service * Redis.db * gmap string value :=
  if redis_active s then
    let lim := getLimitForKey s key in
    match Redis.Exec now net d (acquire_pipeline s now key) with
    | (d', None) => (incr_failed s, d', deny_result "redis error")
    | (d', Some replies) =>
        let count := nth 2 replies 0 in
        if lim <? count then
          (incr_failed s, d', deny_result "rate limit exceeded")
        else
          (incr_successful s, d', allow_result)
    end
  else
    let lim := getLimitForKey s key in
    let '(calls, uc) := LoadOrStore (userCalls s) key [] in
    let recentCalls := recent now (window s) calls in
    if lim <=? Z.of_nat (length recentCalls) then
      (incr_failed (set_userCalls s uc), d, deny_result "rate limit exceeded")
    else
      (incr_successful (set_userCalls s (<[key := recentCalls ++ [now]]> uc)),
       d, allow_result).

(** [acquireLeakyBucket].  The division [s.window / time.Duration(limit)]
    comes first and panics when the limit is zero. *)
Definition acquireLeakyBucket (s : Service) (now : Z) (key : string)
  : Service * outcome (gmap string value) :=
  let lim := getLimitForKey s key in
  if lim =? 0 then
    (s, Panicked "runtime error: integer divide by zero")
  else
    let interval := Int64.quot (window s) lim in
    let '(calls, uc) := LoadOrStore (userCalls s) key [] in
    let recentCalls := recent now (window s) calls in
    let ok :=
      match last recentCalls with
      | None => true
      | Some t => interval <=? Time.Sub now t
      end in
    if ok then
      (incr_successful (set_userCalls s (<[key := recentCalls ++ [now]]> uc)),
       Returned allow_result)
    else
      (incr_failed (set_userCalls s uc),
       Returned (deny_result "leaky bucket: rate limit exceeded")).

Definition Acquire (s : Service) (d : Redis.db) (now : Z)
    (net : Redis.exec_result) (input : gmap string value)
  : Service * Redis.db * outcome (gmap string value) :=
  let '(key, ok) := as_string (input !! "key") in
  if negb ok || bool_decide (key = "") then
    (incr_failed s, d, Returned (deny_result "missing or invalid key"))
  else if algorithm s =? TokenBucket then
    let '(s', d', r) := acquireTokenBucket s d now net key in
    (s', d', Returned r)
  else if algorithm s =? LeakyBucket then
    let '(s', r) := acquireLeakyBucket s now key in (s', d, r)
  else
    (s, d, Returned (deny_result "unknown algorithm")).

(** The transaction of [statusRedis]. *)
Definition status_pipeline (s : Service) (now : Z) (key : string)
  : list Redis.cmd :=
  let redisKey := "ratelimit:" +:+ key in
  let windowStart := now - window s in
  [ Redis.ZRemRangeByScore redisKey 0 (parse_f (Sprintf_f windowStart));
    Redis.ZCard redisKey ].

(** [statusRedis]: the tokens left, or [None] for a non-nil error. *)
Definition statusRedis (s : Service) (d : Redis.db) (now : Z)
    (net : Redis.exec_result) (key : string) : Redis.db * option Z :=
  let lim := getLimitForKey s key in
  match Redis.Exec now net d (status_pipeline s now key) with
  | (d', None) => (d', None)
  | (d', Some replies) =>
      let count := nth 1 replies 0 in
      let tokensLeft := Int64.wrap (lim - count) in
      (d', Some (if tokensLeft <? 0 then 0 else tokensLeft))
  end.

Definition status_result (s : Service) (key : string) (tokensLeft : Z)
  : gmap string value :=
  let lim := getLimitForKey s key in
  <[ "key" := VString key ]>
  (<[ "tokens_left" := VInt tokensLeft ]>
  (<[ "limit" := VInt lim ]>
  (<[ "window_sec" := VInt (Z.quot (window s) Time.Second) ]>
  {[ "refill_rate" := VRatio (lim * Time.Second) (window s) ]}))).

Definition status_local (s : Service) (now : Z) (key : string)
  : gmap string value :=
  let lim := getLimitForKey s key in
  let calls := default [] (userCalls s !! key) in
  let recentCalls := recent now (window s) calls in
  let tokensLeft := Int64.wrap (lim - Z.of_nat (length recentCalls)) in
  status_result s key (if tokensLeft <? 0 then 0 else tokensLeft).

Definition Status (s : Service) (d : Redis.db) (now : Z)
    (net : Redis.exec_result) (key : string)
  : Redis.db * gmap string value :=
  if redis_active s then
    match statusRedis s d now net key with
    | (d', Some tokensLeft) =>
        (d', <[ "source" := VString "redis" ]> (status_result s key tokensLeft))
    | (d', None) => (d', status_local s now key)
    end
  else (d, status_local s now key).

(** The text of [Metrics], given the five numbers it prints. *)
Definition metrics_text (succ failed lastsec latency goroutines : Z) : string :=
  "# HELP ratelimiter_successful_acquires Number of successful acquire attempts
# TYPE ratelimiter_successful_acquires counter
ratelimiter_successful_acquires " +:+ itoa succ +:+ "
# HELP ratelimiter_failed_acquires Number of failed acquire attempts
# TYPE ratelimiter_failed_acquires counter
ratelimiter_failed_acquires " +:+ itoa failed +:+ "
# HELP ratelimiter_requests_last_second Requests in the last second
# TYPE ratelimiter_requests_last_second gauge
ratelimiter_requests_last_second " +:+ itoa lastsec +:+ "
# HELP ratelimiter_redis_latency_microseconds Last Redis latency in microseconds
# TYPE ratelimiter_redis_latency_microseconds gauge
ratelimiter_redis_latency_microseconds " +:+ itoa latency +:+ "
# HELP ratelimiter_goroutines Number of goroutines
# TYPE ratelimiter_goroutines gauge
ratelimiter_goroutines " +:+ itoa goroutines +:+ "
".

(** [Metrics]; [goroutines] is [runtime.NumGoroutine()]. *)
Definition Metrics (s : Service) (goroutines : Z) : string :=
  metrics_text (successfulAcquires s) (failedAcquires s)
    (requestsLastSecond s) (redisLatencyMicros s) goroutines.

(** ** Runs of the service *)

(** The service together with the Redis server it talks to. *)
Abbreviation world := (Service * Redis.db)%type.

Inductive call : Type :=
| CallAcquire (now : Z) (net : Redis.exec_result) (input : gmap string value)
| CallStatus (now : Z) (net : Redis.exec_result) (key : string)
| CallSetLimit (key : string) (lim : Z)
| CallMetrics (goroutines : Z).

Inductive reply : Type :=
| RAcquire (r : outcome (gmap string value))
| RStatus (r : gmap string value)
| RSetLimit
| RMetrics (text : string).

Definition step (w : world) (c : call) : world * reply :=
  let '(s, d) := w in
  match c with
  | CallAcquire now net input =>
      let '(s', d', r) := Acquire s d now net input in ((s', d'), RAcquire r)
  | CallStatus now net key =>
      let '(d', r) := Status s d now net key in ((s, d'), RStatus r)
  | CallSetLimit key lim => ((SetLimit s key lim, d), RSetLimit)
  | CallMetrics g => ((s, d), RMetrics (Metrics s g))
  end.

Fixpoint run (w : world) (cs : list call) : world * list reply :=
  match cs with
  | [] => (w, [])
  | c :: cs' =>
      let '(w1, r) := step w c in
      let '(w2, rs) := run w1 cs' in
      (w2, r :: rs)
  end.

(** [res["allowed"].(bool)] being [true], as the tests check it. *)
Definition allowed (r : outcome (gmap string value)) : bool :=
  match r with
  | Returned m => (as_bool (m !! "allowed")).1
  | Panicked _ => false
  end.

(** [res["error"].(string)], if there is one. *)
Definition error_of (r : outcome (gmap string value)) : option string :=
  match r with
  | Returned m =>
      match m !! "error" with
      | Some (VString e) => Some e
      | _ => None
      end
  | Panicked _ => None
  end.

(** Error strings of the result maps, under the names the decisions go by. *)
Definition missing_key : string := "missing or invalid key".
Definition rate_limit_exceeded : string := "rate limit exceeded".
Definition backend_error : string := "redis error".
Definition unknown_algorithm : string := "unknown algorithm".

(** A request for [key], as the HTTP handler builds it. *)
Definition request (key : string) : gmap string value :=
  {[ "key" := VString key ]}.

(** The stored history of a key; a key never seen has none. *)
Definition history (s : Service) (key : string) : list Z :=
  default [] (userCalls s !! key).

(** Sequential calls of [Acquire], no two of them overlapping: each request
    is a clock reading and a key; the log keeps each request with whether it
    was allowed.  Every transaction reaches the server. *)
Fixpoint serve (w : world) (reqs : list (Z * string))
  : world * list (Z * string * bool) :=
  match reqs with
  | [] => (w, [])
  | (now, key) :: rest =>
      let '(s', d', r) := Acquire w.1 w.2 now Redis.ExecOk (request key) in
      let '(w2, log) := serve (s', d') rest in
      (w2, (now, key, allowed r) :: log)
  end.

(** The clock readings of the allowed calls for [key], in order. *)
Definition admitted (key : string) (log : list (Z * string * bool)) : list Z :=
  (λ e, e.1.1) <$> filter (λ e, e.1.2 = key ∧ e.2 = true) log.

(** The flags of a log. *)
Definition flags (log : list (Z * string * bool)) : list bool := snd <$> log.

(** Clock readings that never go back, none before [T]. *)
Fixpoint chrono_from (T : Z) (reqs : list (Z * string)) : Prop :=
  match reqs with
  | [] => True
  | r :: rest => T <= r.1 ∧ chrono_from r.1 rest
  end.

Definition chronological (reqs : list (Z * string)) : Prop :=
  match reqs with
  | [] => True
  | r :: rest => chrono_from r.1 rest
  end.

(** Successive elements at least [gap] apart. *)
Fixpoint spaced (gap : Z) (ts : list Z) : Prop :=
  match ts with
  | t1 :: (t2 :: _) as rest => gap <= t2 - t1 ∧ spaced gap rest
  | _ => True
  end.

(** How many of [ts] fall in the interval [a <= t < a + len]. *)
Definition count_in (a len : Z) (ts : list Z) : nat :=
  length (filter (λ t, a <= t < a + len) ts).

(** The call at [now] comes less than [interval] after the last of [kept]. *)
Definition too_early (now interval : Z) (kept : list Z) : Prop :=
  match last kept with
  | Some t => now - t < interval
  | None => False
  end.

#[global] Instance too_early_dec now interval kept :
  Decision (too_early now interval kept).
Proof. unfold too_early. destruct (last kept); apply _. Defined.

(** A value a [time.Duration] can hold, the least one apart. *)
Definition duration (w : Z) : Prop := Int64.min_int < w <= Int64.max_int.

(** ** Notions the statements are made of *)

(** The fields no call of [Acquire] writes. *)
Definition same_config (s s' : Service) : Prop :=
  limit s' = limit s ∧ window s' = window s ∧ limits s' = limits s ∧
  redisClient s' = redisClient s ∧ useRedis s' = useRedis s ∧
  algorithm s' = algorithm s.

(** The service as the in-memory tests build it. *)
Definition local_service (lim win alg : Z) : Service :=
  mkService ∅ lim win ∅ None false 0 0 0 0 alg.

(** The service as the Redis tests build it. *)
Definition redis_service (lim win alg : Z) : Service :=
  mkService ∅ lim win ∅ (Some "localhost:6379") true 0 0 0 0 alg.

(** What the stored history [h] of a key knows about the calls [A] admitted
    for it so far, the last of them no later than [T]: from [T] on the two
    have the same entries inside the window; no interval of the window's
    length holds more than [L] admitted calls; no more than [L] entries are
    stored. *)
Definition window_inv (W L : Z) (h A : list Z) (T : Z) : Prop :=
  (∀ now, T <= now →
     filter (λ t, now - t < W) A = filter (λ t, now - t < W) h) ∧
  (∀ a, Z.of_nat (count_in a W A) <= L) ∧
  Z.of_nat (length h) <= L.

(** What the stored history [h] of a key says about the calls [A] admitted
    for it, none of them later than [T]: both end with the same call, which
    is the latest one stored; and admitted calls are [gap] apart. *)
Definition leaky_inv (gap : Z) (h A : list Z) (T : Z) : Prop :=
  spaced gap A ∧
  last h = last A ∧
  (∀ t, t ∈ h → t <= T) ∧
  (∀ ta t, last h = Some ta → t ∈ h → t <= ta).

(** The two gauges of the metrics. *)
Definition gauges (s : Service) : Z * Z :=
  (requestsLastSecond s, redisLatencyMicros s).

(** A key is there at [now] when it has no deadline or a later one. *)
Definition alive (now : Z) (d : Redis.db) (k : string) : Prop :=
  match Redis.expiry_of d k with
  | Some t => now < t
  | None => True
  end.

#[global] Instance alive_dec now d k : Decision (alive now d k).
Proof. unfold alive. destruct (Redis.expiry_of d k); apply _. Defined.

(** The set [z0] of a key after ZREMRANGEBYSCORE from 0 to [max]: the
    entries scored in that range are gone. *)
Definition pruned (max : Z) (z0 : gmap Z Z) : gmap Z Z :=
  filter (λ e, ¬ Redis.in_score_range 0 max e) z0.

(** The set of [key] on the server once the transaction of a call at [now]
    has pruned it and inserted the call. *)
Definition remote_set (s : Service) (d : Redis.db) (now : Z) (key : string)
  : gmap Z Z :=
  <[Sprintf_f now := now]>
    (pruned (parse_f (Sprintf_f (now - window s)))
       (Redis.zset_of (Redis.evict now d) ("ratelimit:" +:+ key))).

(** A clock reading in whole microseconds, not before the epoch. *)
Definition whole (t : Z) : Prop := 0 <= t ∧ (1000 | t).

(** Clock readings that go up, all after [T]. *)
Fixpoint rising_from (T : Z) (ts : list Z) : Prop :=
  match ts with
  | [] => True
  | t :: rest => T < t ∧ rising_from t rest
  end.

Definition rising (ts : list Z) : Prop :=
  match ts with
  | [] => True
  | t :: rest => rising_from t rest
  end.

(** How the history [h] kept by the local backend and the set of the key on
    the server stand after the same calls, the last of them at [T]: the
    entries of [h] still inside the window are on the server, with the
    key's deadline one window after [T]; and as long as no call was denied
    ([clean]) the server holds nothing else. *)
Definition sim (W : Z) (rk : string) (clean : bool) (h : list Z)
    (d : Redis.db) (T : Z) : Prop :=
  NoDup h ∧
  (∀ t, t ∈ h → whole t ∧ t <= T) ∧
  (∀ t, t ∈ h → T - t < W →
     Redis.zset_of d rk !! Sprintf_f t = Some t ∧
     Redis.expiry_of d rk = Some (T + W)) ∧
  (clean = true →
   ∀ m sc, Redis.zset_of d rk !! m = Some sc → sc ∈ h ∧ m = Sprintf_f sc).

(** [status["tokens_left"].(int)], as the tests read it. *)
Definition tokens_left_of (r : gmap string value) : option Z :=
  match r !! "tokens_left" with
  | Some (VInt t) => Some t
  | _ => None
  end.

(** [status["source"].(string)], if the field is there. *)
Definition source_of (r : gmap string value) : option string :=
  match r !! "source" with
  | Some (VString src) => Some src
  | _ => None
  end.

(** The call sets the limit of [key]. *)
Definition sets_limit_of (key : string) (c : call) : Prop :=
  match c with
  | CallSetLimit k _ => k = key
  | _ => False
  end.

#[global] Instance sets_limit_of_dec key c : Decision (sets_limit_of key c).
Proof. destruct c; simpl; apply _. Defined.

(** How many flags of a log are [b]. *)
Definition count_flag (b : bool) (log : list (Z * string * bool)) : Z :=
  Z.of_nat (length (filter (λ e, e.2 = b) log)).

(** The local service with the configuration of [s]: nothing stored, the
    Redis backend out of use. *)
Definition local_twin (s : Service) : Service :=
  mkService ∅ (limit s) (window s) (limits s) None false 0 0 0 0 TokenBucket.

(** ** The HTTP handlers of [internal/handler]

    The handlers use three functions of Go's standard library that are taken
    as given: the base64 decoder, the JSON decoder and the JSON encoder. *)

(** What [json.Unmarshal] puts into an [interface{}]. *)
#[local] Unset Elimination Schemes.
Inductive json : Type :=
| JNull
| JBool (b : bool)
| JNumber (num den : Z)
| JString (s : string)
| JArray (l : list json)
| JObject (l : list (string * json)).
#[local] Set Elimination Schemes.

Record codecs : Type := Codecs {
  (* base64.RawURLEncoding.DecodeString; [None] for an error *)
  b64decode : string → option string;
  (* json.Unmarshal into a map[string]interface{}; [None] for an error *)
  unmarshal : string → option (gmap string json);
  (* what json.NewEncoder(w).Encode writes for a result map *)
  encode : gmap string value → string
}.

(** [strings.HasPrefix(s, prefix)] *)
Definition HasPrefix (s pre : string) : bool := String.prefix pre s.

(** [strings.TrimPrefix(s, prefix)] *)
Definition TrimPrefix (s pre : string) : string :=
  if HasPrefix s pre
  then String.substring (String.length pre)
         (String.length s - String.length pre) s
  else s.

(** [strings.Split(s, sep)] for a separator of one byte, as [parseJWT] uses
    it: the pieces between the separators, one more than there are
    separators. *)
Fixpoint Split (s : string) (sep : ascii) : list string :=
  match s with
  | EmptyString => [EmptyString]
  | String c rest =>
      if decide (c = sep) then EmptyString :: Split rest sep
      else match Split rest sep with
           | piece :: pieces => String c piece :: pieces
           | [] => [String c EmptyString]
           end
  end.

(** [parseJWT]: the claims, or [None] for an error.  The first and the last
    part of the token are not looked at. *)
Definition parseJWT (c : codecs) (tokenString : string)
  : option (gmap string json) :=
  let parts := Split tokenString "."%char in
  if decide (length parts = 3%nat) then
    match b64decode c (nth 1 parts EmptyString) with
    | None => None
    | Some payload => unmarshal c payload
    end
  else None.

(** What a handler wrote to its [http.ResponseWriter]: the status, the
    content type and the body. *)
Record response : Type := Response {
  status : Z;
  content_type : string;
  body : string
}.

Definition StatusUnauthorized : Z := 401.
Definition StatusOK : Z := 200.

(** [http.Error(w, msg, code)] *)
Definition http_Error (msg : string) (code : Z) : response :=
  Response code "text/plain; charset=utf-8" (msg +:+ String "010"%char "").

(** [claims["sub"].(string)] with the comma-ok form. *)
Definition sub_claim (claims : gmap string json) : string * bool :=
  match claims !! "sub" with
  | Some (JString key) => (key, true)
  | _ => (EmptyString, false)
  end.

(** [Handler.Acquire]; [auth] is [r.Header.Get("Authorization")]. *)
Definition handler_Acquire (c : codecs) (w : world) (now : Z)
    (net : Redis.exec_result) (auth : string) : world * outcome response :=
  if negb (HasPrefix auth "Bearer ") then
    (w, Returned (http_Error "missing or invalid Authorization header"
                    StatusUnauthorized))
  else
    let token := TrimPrefix auth "Bearer " in
    match parseJWT c token with
    | None => (w, Returned (http_Error "invalid JWT" StatusUnauthorized))
    | Some claims =>
        let '(key, ok) := sub_claim claims in
        if negb ok || bool_decide (key = "") then
          (w, Returned (http_Error "JWT missing sub claim" StatusUnauthorized))
        else
          let input : gmap string value := {[ "key" := VString key ]} in
          match Acquire w.1 w.2 now net input with
          | (s', d', Returned result) =>
              ((s', d'),
               Returned (Response StatusOK "application/json" (encode c result)))
          | (s', d', Panicked msg) => ((s', d'), Panicked msg)
          end
    end.

(** [Handler.Status] *)
Definition handler_Status (c : codecs) (w : world) (now : Z)
    (net : Redis.exec_result) (auth : string) : world * outcome response :=
  if negb (HasPrefix auth "Bearer ") then
    (w, Returned (http_Error "missing or invalid Authorization header"
                    StatusUnauthorized))
  else
    let token := TrimPrefix auth "Bearer " in
    match parseJWT c token with
    | None => (w, Returned (http_Error "invalid JWT" StatusUnauthorized))
    | Some claims =>
        let '(key, ok) := sub_claim claims in
        if negb ok || bool_decide (key = "") then
          (w, Returned (http_Error "JWT missing sub claim" StatusUnauthorized))
        else
          let '(d', result) := Status w.1 w.2 now net key in
          ((w.1, d'),
           Returned (Response StatusOK "application/json" (encode c result)))
    end.

(** [Handler.Metrics] *)
Definition handler_Metrics (w : world) (goroutines : Z) : response :=
  Response StatusOK "text/plain; version=0.0.4" (Metrics w.1 goroutines).

(** The requests the routes of [RegisterRoutes] hand to the three handlers
    that reach the service. *)
Inductive http_request : Type :=
| ReqAcquire (now : Z) (net : Redis.exec_result) (auth : string)
| ReqStatus (now : Z) (net : Redis.exec_result) (auth : string)
| ReqMetrics (goroutines : Z).

Definition handle (c : codecs) (w : world) (req : http_request)
  : world * outcome response :=
  match req with
  | ReqAcquire now net auth => handler_Acquire c w now net auth
  | ReqStatus now net auth => handler_Status c w now net auth
  | ReqMetrics g => (w, Returned (handler_Metrics w g))
  end.

(** Requests handled one after the other. *)
Fixpoint handle_all (c : codecs) (w : world) (reqs : list http_request)
  : world * list (outcome response) :=
  match reqs with
  | [] => (w, [])
  | req :: rest =>
      let '(w1, r) := handle c w req in
      let '(w2, rs) := handle_all c w1 rest in
      (w2, r :: rs)
  end.

(** The service as [main] sets it up. *)
Definition main_service (env_addr : string) (ping_ok : bool) : Service :=
  let svc := NewService TokenBucket env_addr ping_ok in
  let svc := SetLimit svc "user123" 20 in
  SetLimit svc "apikey-abc" 100.

(** The [Authorization] header carries a bearer token that [parseJWT]
    accepts and whose ["sub"] claim is the non-empty string [key]. *)
Definition authenticated (c : codecs) (auth key : string) : Prop :=
  HasPrefix auth "Bearer " = true ∧
  key ≠ "" ∧
  ∃ claims, parseJWT c (TrimPrefix auth "Bearer ") = Some claims ∧
            claims !! "sub" = Some (JString key).

(** [strings.Join(pieces, sep)] for a separator of one byte. *)
Fixpoint Join (pieces : list string) (sep : ascii) : string :=
  match pieces with
  | [] => EmptyString
  | [piece] => piece
  | piece :: rest => piece +:+ String sep (Join rest sep)
  end.

(** A string without the byte [sep]. *)
Definition without (sep : ascii) (s : string) : Prop :=
  Split s sep = [s].

(** ** Arithmetic of the embedding *)

Lemma sat_lt (d w : Z) : duration w → Int64.sat d < w ↔ d < w.
Proof.
  unfold duration, Int64.sat, Int64.min_int, Int64.max_int.
  intros Hw. repeat case_match; lia.
Qed.

Lemma sat_ge (d i : Z) : duration i → i <= Int64.sat d ↔ i <= d.
Proof.
  unfold duration, Int64.sat, Int64.min_int, Int64.max_int.
  intros Hi. repeat case_match; lia.
Qed.

Lemma wrap_id (z : Z) : Int64.in_range z → Int64.wrap z = z.
Proof.
  unfold Int64.in_range, Int64.wrap, Int64.min_int, Int64.max_int.
  intros Hz. rewrite Z.mod_small; lia.
Qed.

Lemma recent_spec (now w : Z) (calls : list Z) :
  duration w → recent now w calls = filter (λ t, now - t < w) calls.
Proof.
  intros Hw. unfold recent, Time.Sub. apply list_filter_iff.
  intros t. by apply sat_lt.
Qed.

Lemma quot_interval (w l : Z) :
  duration w → 0 < l → Int64.quot w l = Z.quot w l ∧ duration (Z.quot w l).
Proof.
  unfold duration, Int64.quot. intros Hw Hl.
  assert (Hq : Z.abs (Z.quot w l) <= Z.abs w).
  { rewrite <- Z.quot_abs by lia.
    apply Z.quot_le_upper_bound; [lia|]. nia. }
  assert (Int64.min_int < Z.quot w l <= Int64.max_int).
  { unfold Int64.min_int, Int64.max_int in *. lia. }
  split; [|done]. apply wrap_id. unfold Int64.in_range. lia.
Qed.

(** ** Results and configuration *)

Lemma allowed_allow : allowed (Returned allow_result) = true.
Proof. reflexivity. Qed.

Lemma allowed_deny (e : string) : allowed (Returned (deny_result e)) = false.
Proof. unfold allowed, deny_result. by rewrite lookup_insert_eq. Qed.

Lemma request_key (key : string) :
  as_string (request key !! "key") = (key, true).
Proof. unfold request. by rewrite lookup_singleton_eq. Qed.

Lemma same_config_refl (s : Service) : same_config s s.
Proof. by repeat split. Qed.

Lemma same_config_limit (s s' : Service) (key : string) :
  same_config s s' → getLimitForKey s' key = getLimitForKey s key.
Proof. intros (Hl & _ & Hls & _). unfold getLimitForKey. by rewrite Hl, Hls. Qed.

Lemma same_config_redis (s s' : Service) :
  same_config s s' → redis_active s' = redis_active s.
Proof. intros (_ & _ & _ & Hc & Hu & _). unfold redis_active. by rewrite Hc, Hu. Qed.

Lemma same_config_trans (s1 s2 s3 : Service) :
  same_config s1 s2 → same_config s2 s3 → same_config s1 s3.
Proof.
  unfold same_config. intros (?&?&?&?&?&?) (?&?&?&?&?&?).
  repeat split; congruence.
Qed.

Lemma LoadOrStore_history (m : gmap string (list Z)) (key : string) :
  (LoadOrStore m key []).1 = default [] (m !! key) ∧
  ∀ k, default [] ((LoadOrStore m key []).2 !! k) = default [] (m !! k).
Proof.
  unfold LoadOrStore. destruct (m !! key) as [calls|] eqn:Hk; simpl.
  - done.
  - split; [done|]. intros k. destruct (decide (key = k)) as [->|Hne].
    + by rewrite lookup_insert_eq, Hk.
    + by rewrite lookup_insert_ne.
Qed.

(** ** One call on the local backend *)

(** What one token-bucket call does to the history of every key, to the
    counters and to the Redis server, when the local backend answers. *)
Lemma acquireTokenBucket_local (s : Service) (d : Redis.db) (now : Z)
    (net : Redis.exec_result) (key : string) :
  redis_active s = false →
  ∃ s', same_config s s' ∧
    (∀ k, k ≠ key → history s' k = history s k) ∧
    requestsLastSecond s' = requestsLastSecond s ∧
    redisLatencyMicros s' = redisLatencyMicros s ∧
    let r := recent now (window s) (history s key) in
    if getLimitForKey s key <=? Z.of_nat (length r) then
      acquireTokenBucket s d now net key
        = (s', d, deny_result rate_limit_exceeded) ∧
      history s' key = history s key ∧
      successfulAcquires s' = successfulAcquires s ∧
      failedAcquires s' = Int64.incr (failedAcquires s)
    else
      acquireTokenBucket s d now net key = (s', d, allow_result) ∧
      history s' key = r ++ [now] ∧
      successfulAcquires s' = Int64.incr (successfulAcquires s) ∧
      failedAcquires s' = failedAcquires s.
Proof.
  intros Hloc. unfold acquireTokenBucket. rewrite Hloc.
  destruct (LoadOrStore_history (userCalls s) key) as [Hcalls Huc].
  destruct (LoadOrStore (userCalls s) key []) as [calls uc] eqn:Hlos.
  simpl in Hcalls, Huc. fold (history s key) in Hcalls. subst calls.
  destruct (getLimitForKey s key <=? _) eqn:Hcmp.
  - eexists. split; [|split; [|split; [|split]]]; [| | | |split; [reflexivity|]].
    + by repeat split.
    + intros k _. unfold history. simpl. apply Huc.
    + done.
    + done.
    + split; [|done]. unfold history. simpl. apply Huc.
  - eexists. split; [|split; [|split; [|split]]]; [| | | |split; [reflexivity|]].
    + by repeat split.
    + intros k Hne. unfold history. simpl.
      rewrite lookup_insert_ne by done. apply Huc.
    + done.
    + done.
    + split; [|done]. unfold history. simpl. by rewrite lookup_insert_eq.
Qed.

(** The same for the leaky bucket, whose limit is not zero. *)
Lemma acquireLeakyBucket_step (s : Service) (now : Z) (key : string) :
  getLimitForKey s key ≠ 0 →
  ∃ s', same_config s s' ∧
    (∀ k, k ≠ key → history s' k = history s k) ∧
    requestsLastSecond s' = requestsLastSecond s ∧
    redisLatencyMicros s' = redisLatencyMicros s ∧
    let r := recent now (window s) (history s key) in
    let interval := Int64.quot (window s) (getLimitForKey s key) in
    if match last r with
       | None => true
       | Some t => interval <=? Time.Sub now t
       end
    then
      acquireLeakyBucket s now key = (s', Returned allow_result) ∧
      history s' key = r ++ [now] ∧
      successfulAcquires s' = Int64.incr (successfulAcquires s) ∧
      failedAcquires s' = failedAcquires s
    else
      acquireLeakyBucket s now key
        = (s', Returned (deny_result "leaky bucket: rate limit exceeded")) ∧
      history s' key = history s key ∧
      successfulAcquires s' = successfulAcquires s ∧
      failedAcquires s' = Int64.incr (failedAcquires s).
Proof.
  intros Hlim. unfold acquireLeakyBucket.
  apply Z.eqb_neq in Hlim. rewrite Hlim.
  destruct (LoadOrStore_history (userCalls s) key) as [Hcalls Huc].
  destruct (LoadOrStore (userCalls s) key []) as [calls uc] eqn:Hlos.
  simpl in Hcalls, Huc. fold (history s key) in Hcalls. subst calls.
  simpl.
  destruct (match last (recent now (window s) (history s key)) with
            | Some t => _ | None => true end) eqn:Hok.
  - eexists. split; [|split; [|split; [|split]]]; [| | | |split; [reflexivity|]].
    + by repeat split.
    + intros k Hne. unfold history. simpl.
      rewrite lookup_insert_ne by done. apply Huc.
    + done.
    + done.
    + split; [|done]. unfold history. simpl. by rewrite lookup_insert_eq.
  - eexists. split; [|split; [|split; [|split]]]; [| | | |split; [reflexivity|]].
    + by repeat split.
    + intros k _. unfold history. simpl. apply Huc.
    + done.
    + done.
    + split; [|done]. unfold history. simpl. apply Huc.
Qed.

(** [Acquire] on a request that carries a key. *)
Lemma Acquire_request (s : Service) (d : Redis.db) (now : Z)
    (net : Redis.exec_result) (key : string) :
  key ≠ "" →
  Acquire s d now net (request key) =
    if algorithm s =? TokenBucket then
      let '(s', d', r) := acquireTokenBucket s d now net key in
      (s', d', Returned r)
    else if algorithm s =? LeakyBucket then
      let '(s', r) := acquireLeakyBucket s now key in (s', d, r)
    else (s, d, Returned (deny_result "unknown algorithm")).
Proof.
  intros Hkey. unfold Acquire. rewrite request_key. simpl.
  by rewrite bool_decide_eq_false_2.
Qed.

(** ** C1: the token bucket on the local backend *)

(** C1. On the local backend a token-bucket call for [key] keeps the entries
    of the key's history with [now - t < window]; when at least [limit] are
    kept it denies with "rate limit exceeded" and the stored history is as
    before; otherwise it stores the kept entries followed by [now] and
    allows.  The Redis server and the histories of other keys are not
    touched.  With limit 2 and a window of one second, calls at 0 ms, 10 ms,
    500 ms and 1100 ms are allowed, allowed, denied, allowed. *)
Theorem C1_local_token_bucket_rule (s : Service) (d : Redis.db) (now : Z)
    (net : Redis.exec_result) (key : string) :
  redis_active s = false →
  algorithm s = TokenBucket →
  key ≠ "" →
  duration (window s) →
  (let kept := filter (λ t, now - t < window s) (history s key) in
   let '(s', d', r) := Acquire s d now net (request key) in
   d' = d ∧
   (∀ k, k ≠ key → history s' k = history s k) ∧
   if getLimitForKey s key <=? Z.of_nat (length kept) then
     r = Returned (deny_result rate_limit_exceeded) ∧
     history s' key = history s key
   else
     r = Returned allow_result ∧ history s' key = kept ++ [now]) ∧
  (let ms := Time.Millisecond in
   (serve (local_service 2 Time.Second TokenBucket, ∅)
      [(0, "user1"); (10 * ms, "user1"); (500 * ms, "user1");
       (1100 * ms, "user1")]).2
   = [(0, "user1", true); (10 * ms, "user1", true);
      (500 * ms, "user1", false); (1100 * ms, "user1", true)]).
Proof.
  intros Hloc Halg Hkey Hwin. split; [|by vm_compute].
  intros kept. rewrite Acquire_request by done. rewrite Halg. simpl.
  destruct (acquireTokenBucket_local s d now net key Hloc)
    as (s' & _ & Hother & _ & _ & Hstep).
  simpl in Hstep. rewrite recent_spec in Hstep by done. fold kept in Hstep.
  destruct (getLimitForKey s key <=? Z.of_nat (length kept)).
  - destruct Hstep as (-> & Hh & _). by repeat split.
  - destruct Hstep as (-> & Hh & _). by repeat split.
Qed.

Lemma C1_local_token_bucket_rule_witness :
  let s := local_service 2 Time.Second TokenBucket in
  let '(s', d', r) :=
    Acquire s ∅ (500 * Time.Millisecond) Redis.ExecOk (request "user1") in
  d' = ∅ ∧ r = Returned allow_result ∧
  history s' "user1" = [500 * Time.Millisecond].
Proof.
  pose proof (C1_local_token_bucket_rule
    (local_service 2 Time.Second TokenBucket) ∅ (500 * Time.Millisecond)
    Redis.ExecOk "user1") as H.
  destruct H as [H _].
  - reflexivity.
  - reflexivity.
  - done.
  - unfold duration. vm_compute. split; [reflexivity | discriminate].
  - vm_compute in H. vm_compute. tauto.
Defined.

(** ** C5: requests without a key *)

(** C5. When the ["key"] field of the input is absent, is not a string or is
    the empty string, [Acquire] returns [allowed = false] with the error
    "missing or invalid key"; the per-key histories and the Redis server are
    as before, the failed-acquires counter is incremented and nothing else
    of the service changes. *)
Theorem C5_missing_key (s : Service) (d : Redis.db) (now : Z)
    (net : Redis.exec_result) (input : gmap string value) :
  (∀ k, input !! "key" = Some (VString k) → k = "") →
  let '(s', d', r) := Acquire s d now net input in
  allowed r = false ∧
  error_of r = Some missing_key ∧
  userCalls s' = userCalls s ∧
  d' = d ∧
  failedAcquires s' = Int64.incr (failedAcquires s) ∧
  successfulAcquires s' = successfulAcquires s ∧
  s' = incr_failed s.
Proof.
  intros Hkey. unfold Acquire.
  assert (Hbad : let '(key, ok) := as_string (input !! "key") in
                 negb ok || bool_decide (key = "") = true).
  { destruct (input !! "key") as [[| | |k|]|] eqn:Hin; simpl; try done.
    rewrite (Hkey k eq_refl). done. }
  destruct (as_string (input !! "key")) as [key ok]. rewrite Hbad.
  by repeat split.
Qed.

Lemma C5_missing_key_witness :
  let '(s', d', r) :=
    Acquire (local_service 1 Time.Second TokenBucket) ∅ 0 Redis.ExecOk ∅ in
  allowed r = false ∧ error_of r = Some missing_key ∧ failedAcquires s' = 1.
Proof.
  pose proof (C5_missing_key (local_service 1 Time.Second TokenBucket)
                ∅ 0 Redis.ExecOk ∅) as H.
  assert (Hin : ∀ k, (∅ : gmap string value) !! "key" = Some (VString k)
                     → k = "") by (intros k Hk; discriminate Hk).
  specialize (H Hin).
  destruct (Acquire _ _ _ _ _) as [[s' d'] r].
  destruct H as (Ha & He & _ & _ & Hf & _). by rewrite Hf.
Defined.

(** ** Logs *)

Lemma admitted_cons (key : string) (now : Z) (k : string) (b : bool)
    (log : list (Z * string * bool)) :
  admitted key ((now, k, b) :: log) =
    (if decide (k = key ∧ b = true) then [now] else []) ++ admitted key log.
Proof.
  unfold admitted. rewrite filter_cons. simpl. by case_decide.
Qed.

Lemma filter_length_mono {A : Type} (P Q : A → Prop)
    `{!∀ x, Decision (P x), !∀ x, Decision (Q x)} (l : list A) :
  (∀ x, P x → Q x) → (length (filter P l) <= length (filter Q l))%nat.
Proof.
  intros HPQ. rewrite <- (list_filter_filter_l P Q l HPQ). apply length_filter.
Qed.

Lemma count_in_snoc (a len t : Z) (ts : list Z) :
  count_in a len (ts ++ [t]) =
    (count_in a len ts + if decide (a <= t < a + len)%Z then 1 else 0)%nat.
Proof.
  unfold count_in. rewrite filter_app, length_app, filter_cons, filter_nil.
  by case_decide.
Qed.

(** ** One sequential call on the local token bucket *)

(** [Acquire] for any request of the log, on the local token bucket. *)
Lemma Acquire_local_token_bucket (s : Service) (d : Redis.db) (now : Z)
    (net : Redis.exec_result) (k : string) :
  redis_active s = false →
  algorithm s = TokenBucket →
  ∃ s' r, Acquire s d now net (request k) = (s', d, r) ∧
    same_config s s' ∧
    (∀ k', k' ≠ k → history s' k' = history s k') ∧
    let kept := recent now (window s) (history s k) in
    if bool_decide (k ≠ "") &&
       negb (getLimitForKey s k <=? Z.of_nat (length kept))
    then allowed r = true ∧ history s' k = kept ++ [now]
    else allowed r = false ∧ history s' k = history s k.
Proof.
  intros Hloc Halg. destruct (decide (k = "")) as [->|Hk].
  - exists (incr_failed s), (Returned (deny_result missing_key)).
    split; [done|]. split; [by repeat split|]. split; [done|]. done.
  - rewrite Acquire_request by done. rewrite Halg. simpl.
    destruct (acquireTokenBucket_local s d now net k Hloc)
      as (s' & Hcfg & Hother & _ & _ & Hstep). simpl in Hstep.
    rewrite bool_decide_eq_true_2 by done. simpl.
    destruct (getLimitForKey s k <=? _).
    + destruct Hstep as (-> & Hh & _). eexists _, _.
      split; [reflexivity|]. split; [done|]. split; [done|].
      split; [apply allowed_deny|done].
    + destruct Hstep as (-> & Hh & _). eexists _, _.
      split; [reflexivity|]. split; [done|]. split; [done|].
      split; [apply allowed_allow|done].
Qed.

(** ** C2: the sliding-window bound *)

Lemma window_inv_later (W L : Z) (h A : list Z) (T T' : Z) :
  T <= T' → window_inv W L h A T → window_inv W L h A T'.
Proof.
  intros HT (H1 & H2 & H3). split; [|done].
  intros now Hnow. apply H1. lia.
Qed.

Lemma window_inv_admit (W L : Z) (h A : list Z) (T now : Z) :
  T <= now →
  window_inv W L h A T →
  Z.of_nat (length (filter (λ t, now - t < W) h)) < L →
  window_inv W L (filter (λ t, now - t < W) h ++ [now]) (A ++ [now]) now.
Proof.
  intros HT (H1 & H2 & H3) Hlt. split; [|split].
  - intros now' Hnow'. rewrite !filter_app. f_equal.
    rewrite list_filter_filter_l by (intros t; lia).
    apply H1. lia.
  - intros a. rewrite count_in_snoc. case_decide as Hin.
    + assert (count_in a W A <= length (filter (λ t, (now - t < W)%Z) h))%nat.
      { rewrite <- (H1 now HT). unfold count_in.
        apply filter_length_mono. intros t. lia. }
      lia.
    + specialize (H2 a). lia.
  - rewrite length_app. simpl. lia.
Qed.

Lemma serve_window_inv (key : string) (reqs : list (Z * string)) :
  ∀ (s : Service) (d : Redis.db) (A : list Z) (T : Z),
  redis_active s = false →
  algorithm s = TokenBucket →
  duration (window s) →
  window_inv (window s) (getLimitForKey s key) (history s key) A T →
  chrono_from T reqs →
  ∃ s' log T', serve (s, d) reqs = ((s', d), log) ∧
    same_config s s' ∧
    window_inv (window s) (getLimitForKey s key) (history s' key)
      (A ++ admitted key log) T'.
Proof.
  induction reqs as [|[now k] reqs IH]; intros s d A T Hloc Halg Hwin Hinv Hch.
  - exists s, [], T. split; [done|]. split; [apply same_config_refl|].
    by rewrite app_nil_r.
  - destruct Hch as [HT Hch]. simpl in HT, Hch.
    destruct (Acquire_local_token_bucket s d now Redis.ExecOk k Hloc Halg)
      as (s1 & r & Hacq & Hcfg & Hother & Hstep).
    simpl in Hstep. rewrite recent_spec in Hstep by done.
    assert (Hinv1 : window_inv (window s) (getLimitForKey s key)
              (history s1 key)
              (A ++ if decide (k = key ∧ allowed r = true) then [now] else [])
              now).
    { destruct (decide (k = key)) as [->|Hne].
      - destruct (bool_decide (key ≠ "") && _) eqn:Hc.
        + destruct Hstep as [Hal ->]. rewrite Hal.
          rewrite decide_True by done.
          apply andb_prop in Hc as [_ Hc]. apply negb_true_iff in Hc.
          apply Z.leb_gt in Hc. by apply (window_inv_admit _ _ _ _ T).
        + destruct Hstep as [Hal ->]. rewrite Hal.
          rewrite decide_False by (intros [_ ?]; done).
          rewrite app_nil_r. by apply (window_inv_later _ _ _ _ T).
      - rewrite decide_False by (intros [? _]; done).
        rewrite app_nil_r, Hother by done.
        by apply (window_inv_later _ _ _ _ T). }
    destruct Hcfg as (Hl & Hw & Hls & Hc & Hu & Ha).
    assert (Hcfg : same_config s s1) by by repeat split.
    destruct (IH s1 d
                (A ++ if decide (k = key ∧ allowed r = true) then [now] else [])
                now) as (s' & log & T' & Hsrv & Hcfg' & Hinv');
      [by rewrite (same_config_redis s s1) | congruence | by rewrite Hw
      | by rewrite Hw, (same_config_limit s s1) | done |].
    exists s', ((now, k, allowed r) :: log), T'. split; [|split].
    + simpl. rewrite Hacq. simpl in Hsrv. by rewrite Hsrv.
    + by apply (same_config_trans s s1 s').
    + rewrite admitted_cons, app_assoc.
      rewrite Hw, (same_config_limit s s1) in Hinv' by done. apply Hinv'.
Qed.

(** C2. On the local backend, for sequential token-bucket calls whose clock
    never goes back, and a key with limit [L >= 0] and window [W] that starts
    with no history: every interval [a <= t < a + W] holds at most [L] allowed
    calls of the key, and after the calls at most [L] entries are stored for
    it. *)
Theorem C2_sliding_window_bound (s : Service) (d : Redis.db) (key : string)
    (reqs : list (Z * string)) :
  redis_active s = false →
  algorithm s = TokenBucket →
  duration (window s) →
  0 <= getLimitForKey s key →
  history s key = [] →
  chronological reqs →
  let '(w', log) := serve (s, d) reqs in
  (∀ a, Z.of_nat (count_in a (window s) (admitted key log))
          <= getLimitForKey s key) ∧
  Z.of_nat (length (history w'.1 key)) <= getLimitForKey s key.
Proof.
  intros Hloc Halg Hwin HL Hfresh Hch.
  assert (Hinv0 : ∀ T, window_inv (window s) (getLimitForKey s key)
                         (history s key) [] T).
  { intros T. rewrite Hfresh. split; [done|].
    split; [intros a|]; unfold count_in; simpl; lia. }
  assert (Hch' : ∃ T, chrono_from T reqs).
  { destruct reqs as [|r reqs]; [by exists 0|].
    exists r.1. simpl. split; [lia|done]. }
  destruct Hch' as [T Hch'].
  destruct (serve_window_inv key reqs s d [] T Hloc Halg Hwin (Hinv0 T) Hch')
    as (s' & log & T' & -> & _ & (_ & H2 & H3)).
  simpl in *. done.
Qed.

Lemma C2_sliding_window_bound_witness :
  let ms := Time.Millisecond in
  let reqs := [(0, "user1"); (10 * ms, "user1"); (500 * ms, "user1");
               (1100 * ms, "user1")] in
  let res := serve (local_service 2 Time.Second TokenBucket, ∅) reqs in
  admitted "user1" res.2 = [0; 10 * ms; 1100 * ms] ∧
  (∀ a, Z.of_nat (count_in a Time.Second (admitted "user1" res.2)) <= 2) ∧
  Z.of_nat (length (history res.1.1 "user1")) <= 2.
Proof.
  intros ms reqs res.
  pose proof (C2_sliding_window_bound
    (local_service 2 Time.Second TokenBucket) ∅ "user1" reqs) as H.
  fold res in H. destruct res as [w' log] eqn:Hres.
  split; [by vm_compute in Hres; injection Hres as <- <- |].
  apply H.
  - reflexivity.
  - reflexivity.
  - unfold duration. vm_compute. split; [reflexivity | discriminate].
  - vm_compute. discriminate.
  - reflexivity.
  - vm_compute. repeat split; discriminate.
Defined.

(** ** C3: the leaky bucket *)

Lemma spaced_snoc (gap t : Z) (ts : list Z) :
  spaced gap ts →
  (∀ ta, last ts = Some ta → gap <= t - ta) →
  spaced gap (ts ++ [t]).
Proof.
  induction ts as [|t1 [|t2 ts] IH]; intros Hsp Hlast.
  - done.
  - simpl. split; [|done]. by apply Hlast.
  - destruct Hsp as [H12 Hsp]. split; [done|].
    apply IH; [done|]. intros ta Hta. apply Hlast.
    by rewrite last_cons_cons.
Qed.

Lemma quot_le_window (w l : Z) : 0 < l → Z.quot w l <= Z.max w 0.
Proof.
  intros Hl. destruct (Z.le_gt_cases 0 w) as [Hw|Hw].
  - rewrite Z.max_l by done. apply Z.quot_le_upper_bound; [done|]. nia.
  - rewrite Z.max_r by lia.
    rewrite <- (Z.opp_involutive w), Z.quot_opp_l by lia.
    assert (0 <= Z.quot (- w) l) by (apply Z.quot_pos; lia). lia.
Qed.

(** [Acquire] for any request, on the leaky bucket: the histories of the
    other keys stay. *)
Lemma Acquire_leaky_bucket_frame (s : Service) (d : Redis.db) (now : Z)
    (net : Redis.exec_result) (k : string) :
  algorithm s = LeakyBucket →
  ∃ s' r, Acquire s d now net (request k) = (s', d, r) ∧
    same_config s s' ∧
    (∀ k', k' ≠ k → history s' k' = history s k').
Proof.
  intros Halg. destruct (decide (k = "")) as [->|Hk].
  - exists (incr_failed s), (Returned (deny_result missing_key)).
    split; [done|]. split; [by repeat split|done].
  - rewrite Acquire_request by done. rewrite Halg. simpl.
    destruct (decide (getLimitForKey s k = 0)) as [H0|H0].
    + unfold acquireLeakyBucket. rewrite H0. simpl.
      eexists _, _. split; [reflexivity|]. split; [apply same_config_refl|done].
    + destruct (acquireLeakyBucket_step s now k H0)
        as (s' & Hcfg & Hother & _ & _ & Hstep). simpl in Hstep.
      destruct (match last _ with Some _ => _ | None => true end).
      * destruct Hstep as (-> & _). by eexists _, _.
      * destruct Hstep as (-> & _). by eexists _, _.
Qed.

(** [Acquire] on the leaky bucket for a key whose limit is positive, with
    plain subtraction and division. *)
Lemma Acquire_leaky_bucket_rule (s : Service) (d : Redis.db) (now : Z)
    (net : Redis.exec_result) (key : string) :
  algorithm s = LeakyBucket →
  key ≠ "" →
  duration (window s) →
  0 < getLimitForKey s key →
  ∃ s', same_config s s' ∧
    let kept := filter (λ t, now - t < window s) (history s key) in
    let interval := Z.quot (window s) (getLimitForKey s key) in
    if decide (too_early now interval kept) then
      Acquire s d now net (request key)
        = (s', d, Returned (deny_result "leaky bucket: rate limit exceeded")) ∧
      history s' key = history s key
    else
      Acquire s d now net (request key) = (s', d, Returned allow_result) ∧
      history s' key = kept ++ [now].
Proof.
  intros Halg Hkey Hwin HL.
  rewrite Acquire_request by done. rewrite Halg. simpl.
  destruct (acquireLeakyBucket_step s now key) as
    (s' & Hcfg & _ & _ & _ & Hstep); [lia|]. simpl in Hstep.
  rewrite recent_spec in Hstep by done.
  destruct (quot_interval (window s) (getLimitForKey s key) Hwin HL)
    as [Hq Hdur]. rewrite Hq in Hstep.
  exists s'. split; [done|]. simpl.
  destruct (decide (too_early _ _ _)) as [He|He]; unfold too_early in He;
    destruct (last (filter _ (history s key))) as [t|] eqn:Hlast;
    unfold Time.Sub in Hstep.
  - destruct (_ <=? _) eqn:Hcmp.
    + apply Z.leb_le in Hcmp. apply (proj1 (sat_ge _ _ Hdur)) in Hcmp. lia.
    + by destruct Hstep as (-> & Hh & _).
  - done.
  - destruct (_ <=? _) eqn:Hcmp.
    + by destruct Hstep as (-> & Hh & _).
    + apply Z.leb_gt in Hcmp. exfalso.
      assert (Hge : Z.quot (window s) (getLimitForKey s key) <= now - t)
        by lia.
      apply (proj2 (sat_ge (now - t) _ Hdur)) in Hge. lia.
  - by destruct Hstep as (-> & Hh & _).
Qed.

Lemma leaky_inv_later (gap : Z) (h A : list Z) (T T' : Z) :
  T <= T' → leaky_inv gap h A T → leaky_inv gap h A T'.
Proof.
  intros HT (H1 & H2 & H3 & H4). repeat split; try done.
  intros t Ht. specialize (H3 t Ht). lia.
Qed.

(** The entry the leaky bucket compares with is the last admitted call. *)
Lemma leaky_last_kept (gap W : Z) (h A : list Z) (T now t : Z) :
  leaky_inv gap h A T →
  last (filter (λ t, now - t < W) h) = Some t →
  last A = Some t.
Proof.
  intros (_ & Hlast & _ & Hmax) Hkept.
  assert (Hin : t ∈ filter (λ t, now - t < W) h)
    by (by apply last_Some_elem_of).
  apply list_elem_of_filter in Hin as [HP Hin].
  destruct (last h) as [ta|] eqn:Hh.
  - rewrite <- Hlast. pose proof (Hmax ta t eq_refl Hin) as Hle.
    apply last_Some in Hh as [h0 ->].
    rewrite filter_app, filter_cons, filter_nil in Hkept.
    case_decide as HPa.
    + rewrite last_snoc in Hkept. done.
    + lia.
  - apply last_None in Hh. subst h. by apply elem_of_nil in Hin.
Qed.

Lemma leaky_inv_admit (W L : Z) (h A : list Z) (T now : Z) :
  0 < L →
  T <= now →
  leaky_inv (Z.quot W L) h A T →
  ¬ too_early now (Z.quot W L) (filter (λ t, now - t < W) h) →
  leaky_inv (Z.quot W L) (filter (λ t, now - t < W) h ++ [now]) (A ++ [now])
    now.
Proof.
  intros HL HT Hinv Hok. pose proof Hinv as (Hsp & Hlast & HleT & Hmax).
  split; [|split; [|split]].
  - apply spaced_snoc; [done|]. intros ta Hta.
    destruct (last (filter (λ t, now - t < W) h)) as [t|] eqn:Hkept.
    + pose proof (leaky_last_kept _ W h A T now t Hinv Hkept) as Ht.
      assert (t = ta) by congruence. subst t.
      destruct (Z.lt_ge_cases (now - ta) (Z.quot W L)); [|lia].
      exfalso. apply Hok. unfold too_early. by rewrite Hkept.
    + rewrite <- Hlast in Hta.
      assert (Hin : ta ∈ h) by (by apply last_Some_elem_of).
      assert (HnP : ¬ (now - ta < W)).
      { intros HP. apply last_None in Hkept.
        by apply (filter_nil_not_elem_of _ h ta Hkept HP). }
      pose proof (HleT ta Hin). pose proof (quot_le_window W L HL). lia.
  - by rewrite !last_snoc.
  - intros t [Ht| ->%list_elem_of_singleton]%elem_of_app; [|lia].
    apply list_elem_of_filter in Ht as [_ Ht]. specialize (HleT t Ht). lia.
  - intros ta t Hta Ht. rewrite last_snoc in Hta. injection Hta as <-.
    apply elem_of_app in Ht as [Ht| ->%list_elem_of_singleton]; [|lia].
    apply list_elem_of_filter in Ht as [_ Ht]. specialize (HleT t Ht). lia.
Qed.

Lemma serve_leaky_inv (key : string) (reqs : list (Z * string)) :
  ∀ (s : Service) (d : Redis.db) (A : list Z) (T : Z),
  algorithm s = LeakyBucket →
  key ≠ "" →
  duration (window s) →
  0 < getLimitForKey s key →
  leaky_inv (Z.quot (window s) (getLimitForKey s key)) (history s key) A T →
  chrono_from T reqs →
  ∃ s' log T', serve (s, d) reqs = ((s', d), log) ∧
    leaky_inv (Z.quot (window s) (getLimitForKey s key)) (history s' key)
      (A ++ admitted key log) T'.
Proof.
  induction reqs as [|[now k] reqs IH];
    intros s d A T Halg Hkey Hwin HL Hinv Hch.
  - exists s, [], T. split; [done|]. by rewrite app_nil_r.
  - destruct Hch as [HT Hch]. simpl in HT, Hch.
    assert (Hstep : ∃ s1 r, Acquire s d now Redis.ExecOk (request k)
                            = (s1, d, r) ∧ same_config s s1 ∧
              leaky_inv (Z.quot (window s) (getLimitForKey s key))
                (history s1 key)
                (A ++ if decide (k = key ∧ allowed r = true) then [now] else [])
                now).
    { destruct (decide (k = key)) as [->|Hne].
      - destruct (Acquire_leaky_bucket_rule s d now Redis.ExecOk key
                    Halg Hkey Hwin HL) as (s1 & Hcfg & Hrule).
        simpl in Hrule. case_decide as Hearly.
        + destruct Hrule as [Hacq Hh]. eexists _, _.
          split; [exact Hacq|]. split; [done|].
          rewrite allowed_deny, decide_False by (by intros [_ ?]).
          rewrite app_nil_r, Hh. by apply (leaky_inv_later _ _ _ T).
        + destruct Hrule as [Hacq Hh]. eexists _, _.
          split; [exact Hacq|]. split; [done|].
          rewrite allowed_allow, decide_True by done.
          rewrite Hh. by apply (leaky_inv_admit _ _ _ _ T).
      - destruct (Acquire_leaky_bucket_frame s d now Redis.ExecOk k Halg)
          as (s1 & r & Hacq & Hcfg & Hother).
        exists s1, r. split; [done|]. split; [done|].
        rewrite decide_False by (by intros [? _]).
        rewrite app_nil_r, Hother by done.
        by apply (leaky_inv_later _ _ _ T). }
    destruct Hstep as (s1 & r & Hacq & Hcfg & Hinv1).
    pose proof (same_config_limit s s1 key Hcfg) as Hlim.
    destruct Hcfg as (Hl & Hw & Hls & Hc & Hu & Ha).
    destruct (IH s1 d
                (A ++ if decide (k = key ∧ allowed r = true) then [now] else [])
                now) as (s' & log & T' & Hsrv & Hinv');
      [congruence | done | by rewrite Hw | by rewrite Hlim
      | by rewrite Hw, Hlim | done |].
    exists s', ((now, k, allowed r) :: log), T'. split.
    + simpl. rewrite Hacq. simpl in Hsrv. by rewrite Hsrv.
    + rewrite admitted_cons, app_assoc.
      rewrite Hw, Hlim in Hinv'. apply Hinv'.
Qed.

(** C3. Under the leaky bucket, for a key with limit [L > 0] and window [W]:
    a call that finds a kept entry (one with [now - t < W]) and comes less
    than [W / L] after the last of them is denied, with the error
    "leaky bucket: rate limit exceeded", and the history stays; any
    other call, with no kept entry or at least [W / L] after the last one,
    stores the kept entries followed by [now] and is allowed.  For sequential
    calls whose clock never goes back, on a key that starts with no history,
    successive allowed calls of the key are at least [W / L] apart. *)
Theorem C3_leaky_bucket_spacing (s : Service) (d : Redis.db) (key : string) :
  algorithm s = LeakyBucket →
  key ≠ "" →
  duration (window s) →
  0 < getLimitForKey s key →
  let interval := Z.quot (window s) (getLimitForKey s key) in
  (∀ now net,
     let kept := filter (λ t, now - t < window s) (history s key) in
     let '(s', d', r) := Acquire s d now net (request key) in
     d' = d ∧
     if decide (too_early now interval kept) then
       r = Returned (deny_result "leaky bucket: rate limit exceeded") ∧
       history s' key = history s key
     else
       r = Returned allow_result ∧ history s' key = kept ++ [now]) ∧
  (∀ reqs,
     history s key = [] →
     chronological reqs →
     spaced interval (admitted key (serve (s, d) reqs).2)).
Proof.
  intros Halg Hkey Hwin HL interval. split.
  - intros now net kept.
    destruct (Acquire_leaky_bucket_rule s d now net key Halg Hkey Hwin HL)
      as (s' & _ & Hrule). simpl in Hrule. fold kept interval in Hrule.
    case_decide.
    + by destruct Hrule as [-> Hh].
    + by destruct Hrule as [-> Hh].
  - intros reqs Hfresh Hch.
    assert (Hinv0 : ∀ T, leaky_inv interval (history s key) [] T).
    { intros T. rewrite Hfresh. split; [done|]. split; [done|].
      split; [intros t Ht; by apply elem_of_nil in Ht | by intros ta t Hta]. }
    assert (Hch' : ∃ T, chrono_from T reqs).
    { destruct reqs as [|r reqs]; [by exists 0|].
      exists r.1. simpl. split; [lia|done]. }
    destruct Hch' as [T Hch'].
    destruct (serve_leaky_inv key reqs s d [] T Halg Hkey Hwin HL
                (Hinv0 T) Hch') as (s' & log & T' & -> & (Hsp & _)).
    done.
Qed.

Lemma C3_leaky_bucket_spacing_witness :
  let ms := Time.Millisecond in
  let reqs := [(1000 * ms, "user1"); (1400 * ms, "user1");
               (1500 * ms, "user1"); (2200 * ms, "user1")] in
  let res := serve (local_service 2 Time.Second LeakyBucket, ∅) reqs in
  admitted "user1" res.2 = [1000 * ms; 1500 * ms; 2200 * ms] ∧
  spaced (500 * ms) (admitted "user1" res.2).
Proof.
  intros ms reqs res. split; [reflexivity|].
  pose proof (C3_leaky_bucket_spacing
    (local_service 2 Time.Second LeakyBucket) ∅ "user1") as H.
  destruct H as [_ H].
  - reflexivity.
  - done.
  - unfold duration. vm_compute. split; [reflexivity | discriminate].
  - reflexivity.
  - apply (H reqs).
    + reflexivity.
    + vm_compute. repeat split; discriminate.
Defined.

(** ** C10: the two gauges nothing writes *)

Lemma acquireTokenBucket_gauges (s : Service) (d : Redis.db) (now : Z)
    (net : Redis.exec_result) (key : string) :
  gauges (acquireTokenBucket s d now net key).1.1 = gauges s.
Proof.
  unfold acquireTokenBucket. destruct (redis_active s).
  - destruct (Redis.Exec _ _ _ _) as [d' [rs|]]; [|done].
    by destruct (_ <? _).
  - destruct (LoadOrStore _ _ _) as [calls uc]. by destruct (_ <=? _).
Qed.

Lemma acquireLeakyBucket_gauges (s : Service) (now : Z) (key : string) :
  gauges (acquireLeakyBucket s now key).1 = gauges s.
Proof.
  unfold acquireLeakyBucket. destruct (_ =? 0); [done|].
  destruct (LoadOrStore _ _ _) as [calls uc].
  by destruct (match last _ with Some _ => _ | None => true end).
Qed.

Lemma Acquire_gauges (s : Service) (d : Redis.db) (now : Z)
    (net : Redis.exec_result) (input : gmap string value) :
  gauges (Acquire s d now net input).1.1 = gauges s.
Proof.
  unfold Acquire. destruct (as_string _) as [key ok].
  destruct (negb ok || _); [done|].
  destruct (algorithm s =? TokenBucket).
  - pose proof (acquireTokenBucket_gauges s d now net key) as H.
    by destruct (acquireTokenBucket s d now net key) as [[s' d'] r].
  - destruct (algorithm s =? LeakyBucket); [|done].
    pose proof (acquireLeakyBucket_gauges s now key) as H.
    by destruct (acquireLeakyBucket s now key) as [s' r].
Qed.

Lemma step_gauges (w : world) (c : call) :
  gauges (step w c).1.1 = gauges w.1.
Proof.
  destruct w as [s d], c as [now net input|now net key|key lim|g]; simpl.
  - pose proof (Acquire_gauges s d now net input) as H.
    by destruct (Acquire s d now net input) as [[s' d'] r].
  - by destruct (Status s d now net key) as [d' r].
  - done.
  - done.
Qed.

Lemma run_gauges (cs : list call) :
  ∀ w, gauges (run w cs).1.1 = gauges w.1.
Proof.
  induction cs as [|c cs IH]; intros w; [done|]. simpl.
  pose proof (step_gauges w c) as Hs.
  destruct (step w c) as [w1 r]. specialize (IH w1).
  destruct (run w1 cs) as [w2 rs]. simpl in *. congruence.
Qed.

(** C10. In every state the service reaches from [NewService] by calls of
    [Acquire], [Status], [SetLimit] and [Metrics], the fields
    [requestsLastSecond] and [redisLatencyMicros] are 0, and the text of
    [Metrics] has the lines [ratelimiter_requests_last_second 0] and
    [ratelimiter_redis_latency_microseconds 0]. *)
Theorem C10_unwritten_gauges (alg : Z) (addr : string) (ping : bool)
    (d0 : Redis.db) (cs : list call) (g : Z) :
  let s := (run (NewService alg addr ping, d0) cs).1.1 in
  requestsLastSecond s = 0 ∧
  redisLatencyMicros s = 0 ∧
  Metrics s g =
  "# HELP ratelimiter_successful_acquires Number of successful acquire attempts
# TYPE ratelimiter_successful_acquires counter
ratelimiter_successful_acquires " +:+ itoa (successfulAcquires s) +:+ "
# HELP ratelimiter_failed_acquires Number of failed acquire attempts
# TYPE ratelimiter_failed_acquires counter
ratelimiter_failed_acquires " +:+ itoa (failedAcquires s) +:+ "
# HELP ratelimiter_requests_last_second Requests in the last second
# TYPE ratelimiter_requests_last_second gauge
ratelimiter_requests_last_second 0
# HELP ratelimiter_redis_latency_microseconds Last Redis latency in microseconds
# TYPE ratelimiter_redis_latency_microseconds gauge
ratelimiter_redis_latency_microseconds 0
# HELP ratelimiter_goroutines Number of goroutines
# TYPE ratelimiter_goroutines gauge
ratelimiter_goroutines " +:+ itoa g +:+ "
".
Proof.
  intros s.
  assert (Hg : gauges s = (0, 0)).
  { unfold s. rewrite run_gauges. unfold NewService. by destruct ping. }
  injection Hg as H1 H2. split; [done|]. split; [done|].
  unfold Metrics. rewrite H1, H2. reflexivity.
Qed.

(** ** The Redis server *)

Lemma zset_of_put_zset (d : Redis.db) (k k' : string) (z : gmap Z Z) :
  Redis.zset_of (Redis.put_zset d k z) k' =
    if decide (k = k') then z else Redis.zset_of d k'.
Proof.
  unfold Redis.zset_of, Redis.put_zset.
  destruct (decide (z = ∅)) as [->|Hz]; destruct (decide (k = k')) as [->|Hne].
  - by rewrite lookup_delete_eq.
  - by rewrite lookup_delete_ne.
  - by rewrite lookup_insert_eq.
  - by rewrite lookup_insert_ne.
Qed.

Lemma lookup_put_zset_ne (d : Redis.db) (k k' : string) (z : gmap Z Z) :
  k ≠ k' → Redis.put_zset d k z !! k' = d !! k'.
Proof.
  intros Hne. unfold Redis.put_zset. destruct (decide (z = ∅)).
  - by rewrite lookup_delete_ne.
  - by rewrite lookup_insert_ne.
Qed.

Lemma lookup_put_zset_eq (d : Redis.db) (k : string) (z : gmap Z Z) :
  z ≠ ∅ →
  Redis.put_zset d k z !! k = Some (Redis.ZKey z (Redis.expiry_of d k)).
Proof.
  intros Hz. unfold Redis.put_zset. rewrite decide_False by done.
  by rewrite lookup_insert_eq.
Qed.

Lemma lookup_evict (now : Z) (d : Redis.db) (k : string) :
  Redis.evict now d !! k = if decide (alive now d k) then d !! k else None.
Proof.
  unfold Redis.evict.
  destruct (decide (alive now d k)) as [Ha|Ha];
    unfold alive, Redis.expiry_of in Ha;
    destruct (d !! k) as [zk|] eqn:Hk; simpl in Ha.
  - by apply map_lookup_filter_Some.
  - apply map_lookup_filter_None. by left.
  - apply map_lookup_filter_None. right. intros zk' Hk'.
    by assert (zk' = zk) as -> by congruence.
  - done.
Qed.

Lemma zset_of_evict (now : Z) (d : Redis.db) (k : string) :
  Redis.zset_of (Redis.evict now d) k =
    if decide (alive now d k) then Redis.zset_of d k else ∅.
Proof.
  unfold Redis.zset_of. rewrite lookup_evict. by case_decide.
Qed.

Lemma insert_non_empty' (z : gmap Z Z) (m sc : Z) : <[m := sc]> z ≠ ∅.
Proof. apply insert_non_empty. Qed.

(** The transaction of [acquireTokenBucket], run on the server. *)
Lemma exec_acquire_pipeline (s : Service) (d : Redis.db) (now : Z)
    (key : string) :
  let rk := "ratelimit:" +:+ key in
  let z2 := <[Sprintf_f now := now]>
              (pruned (parse_f (Sprintf_f (now - window s)))
                 (Redis.zset_of d rk)) in
  ∃ d' r1 r2 r4,
    Redis.exec_cmds now d (acquire_pipeline s now key)
      = (d', [r1; r2; Z.of_nat (size z2); r4]) ∧
    (∀ k', k' ≠ rk → d' !! k' = d !! k') ∧
    d' !! rk = if window s <=? 0 then None
               else Some (Redis.ZKey z2 (Some (now + window s))).
Proof.
  intros rk z2. unfold acquire_pipeline. fold rk. simpl.
  fold (pruned (parse_f (Sprintf_f (now - window s))) (Redis.zset_of d rk)).
  set (z1 := pruned _ _) in *.
  rewrite zset_of_put_zset, decide_True by done. fold z2.
  rewrite zset_of_put_zset, decide_True by done.
  rewrite lookup_put_zset_eq by apply insert_non_empty'.
  destruct (window s <=? 0) eqn:HW; eexists _, _, _, _;
    (split; [reflexivity|]); split.
  - intros k' Hne. rewrite lookup_delete_ne by done.
    by rewrite !lookup_put_zset_ne.
  - by rewrite lookup_delete_eq.
  - intros k' Hne. rewrite lookup_insert_ne by done.
    by rewrite !lookup_put_zset_ne.
  - by rewrite lookup_insert_eq.
Qed.

(** ** One call on the shared backend *)

Lemma acquireTokenBucket_redis (s : Service) (d : Redis.db) (now : Z)
    (key : string) :
  redis_active s = true →
  let rk := "ratelimit:" +:+ key in
  let z2 := remote_set s d now key in
  ∃ s' d', same_config s s' ∧ userCalls s' = userCalls s ∧
    (∀ k', k' ≠ rk → d' !! k' = Redis.evict now d !! k') ∧
    d' !! rk = (if window s <=? 0 then None
                else Some (Redis.ZKey z2 (Some (now + window s)))) ∧
    requestsLastSecond s' = requestsLastSecond s ∧
    redisLatencyMicros s' = redisLatencyMicros s ∧
    if getLimitForKey s key <? Z.of_nat (size z2) then
      acquireTokenBucket s d now Redis.ExecOk key
        = (s', d', deny_result rate_limit_exceeded) ∧
      successfulAcquires s' = successfulAcquires s ∧
      failedAcquires s' = Int64.incr (failedAcquires s)
    else
      acquireTokenBucket s d now Redis.ExecOk key = (s', d', allow_result) ∧
      successfulAcquires s' = Int64.incr (successfulAcquires s) ∧
      failedAcquires s' = failedAcquires s.
Proof.
  intros Hact rk z2. unfold acquireTokenBucket. rewrite Hact.
  unfold Redis.Exec.
  destruct (exec_acquire_pipeline s (Redis.evict now d) now key)
    as (d' & r1 & r2 & r4 & Hexec & Hother & Hrk).
  rewrite Hexec. simpl. fold rk in Hother, Hrk.
  fold (remote_set s d now key) in Hrk |- *. fold z2 in Hrk |- *.
  destruct (getLimitForKey s key <? Z.of_nat (size z2)).
  - exists (incr_failed s), d'. split; [by repeat split|]. by repeat split.
  - exists (incr_successful s), d'. split; [by repeat split|].
    by repeat split.
Qed.

Lemma acquireTokenBucket_redis_error (s : Service) (d : Redis.db) (now : Z)
    (applied : bool) (key : string) :
  redis_active s = true →
  acquireTokenBucket s d now (Redis.ExecErr applied) key =
    (incr_failed s,
     (Redis.Exec now (Redis.ExecErr applied) d (acquire_pipeline s now key)).1,
     deny_result backend_error).
Proof.
  intros Hact. unfold acquireTokenBucket. rewrite Hact.
  by destruct applied.
Qed.

(** ** C4: the token bucket on the shared backend *)

(** C4 (amended). On the shared backend a token-bucket call runs one
    transaction of four commands: remove the entries scored from 0 to
    [now - window], insert the call scored [now], count, refresh the
    expiration.  When the transaction fails the call is denied with
    "redis error".  Otherwise it is denied with "rate limit exceeded" when
    the count after the insertion is above the limit and allowed when it is
    not; in both cases the inserted entry stays in the set (for a positive
    window).  The histories of the local backend are not touched.  No bound
    on the size of the set is stated. *)
Theorem C4_shared_token_bucket_rule (s : Service) (d : Redis.db) (now : Z)
    (net : Redis.exec_result) (key : string) :
  redis_active s = true →
  algorithm s = TokenBucket →
  key ≠ "" →
  let rk := "ratelimit:" +:+ key in
  let pipe := [ Redis.ZRemRangeByScore rk 0
                  (parse_f (Sprintf_f (now - window s)));
                Redis.ZAdd rk now (Sprintf_f now);
                Redis.ZCard rk;
                Redis.Expire rk (window s) ] in
  let '(s', d', r) := Acquire s d now net (request key) in
  userCalls s' = userCalls s ∧
  d' = (Redis.Exec now net d pipe).1 ∧
  match net with
  | Redis.ExecErr _ => r = Returned (deny_result backend_error)
  | Redis.ExecOk =>
      let count := Z.of_nat (size (remote_set s d now key)) in
      (Redis.Exec now net d pipe).2 ≫= (λ rs : list Z, rs !! 2%nat)
        = Some count ∧
      r = Returned (if getLimitForKey s key <? count
                    then deny_result rate_limit_exceeded
                    else allow_result) ∧
      (0 < window s →
       Redis.zset_of d' rk = remote_set s d now key ∧
       Redis.zset_of d' rk !! Sprintf_f now = Some now)
  end.
Proof.
  intros Hact Halg Hkey rk pipe.
  rewrite Acquire_request by done. rewrite Halg. simpl.
  destruct net as [|applied].
  - unfold acquireTokenBucket. rewrite Hact. unfold Redis.Exec.
    destruct (exec_acquire_pipeline s (Redis.evict now d) now key)
      as (d1 & r1 & r2 & r4 & Hexec & _ & Hrk).
    fold rk in Hrk. fold (remote_set s d now key) in Hexec, Hrk.
    change (acquire_pipeline s now key) with pipe in *.
    rewrite Hexec. simpl.
    assert (Hset : 0 < window s →
              Redis.zset_of d1 rk = remote_set s d now key ∧
              Redis.zset_of d1 rk !! Sprintf_f now = Some now).
    { intros HW. unfold Redis.zset_of. rewrite Hrk.
      destruct (window s <=? 0) eqn:Hle; [apply Z.leb_le in Hle; lia|].
      simpl. split; [done|]. unfold remote_set. by rewrite lookup_insert_eq. }
    destruct (getLimitForKey s key <? _); simpl;
      do 4 (split; [done|]); exact Hset.
  - rewrite acquireTokenBucket_redis_error by done. simpl.
    by repeat split.
Qed.

Lemma C4_shared_token_bucket_rule_witness :
  let s := redis_service 2 Time.Second TokenBucket in
  let res := Acquire s ∅ Time.Second Redis.ExecOk (request "redisuser1") in
  res.2 = Returned allow_result ∧
  Redis.zset_of res.1.2 "ratelimit:redisuser1" !! 1000000 = Some Time.Second.
Proof.
  intros s res.
  pose proof (C4_shared_token_bucket_rule s ∅ Time.Second Redis.ExecOk
                "redisuser1") as H.
  fold res in H. destruct res as [[s' d'] r].
  destruct H as (_ & _ & _ & Hr & Hset); [reflexivity | reflexivity | done |].
  split; [exact Hr|]. apply Hset. reflexivity.
Defined.

(** C4, the bound [limit + 1] on the remote set does not hold.  With limit
    1 and a window of one minute, three calls one second apart are allowed,
    denied, denied, and the
    set of the key then holds three entries, more than [limit + 1]: every
    denied call leaves its entry. *)
Lemma C4_remote_set_exceeds_bound :
  let s := redis_service 1 Time.Minute TokenBucket in
  let res := serve (s, ∅) [(1 * Time.Second, "u"); (2 * Time.Second, "u");
                           (3 * Time.Second, "u")] in
  flags res.2 = [true; false; false] ∧
  getLimitForKey res.1.1 "u" = 1 ∧
  size (Redis.zset_of res.1.2 "ratelimit:u") = 3%nat ∧
  ¬ (Z.of_nat (size (Redis.zset_of res.1.2 "ratelimit:u"))
       <= getLimitForKey res.1.1 "u" + 1).
Proof. vm_compute. repeat split; try reflexivity. intros H. by apply H. Qed.

(** ** C8: the member of an inserted entry *)

(** The printed value is within half a microsecond of the value. *)
Lemma Sprintf_f_bounds (x : Z) :
  x - 500 <= 1000 * Sprintf_f x <= x + 500.
Proof.
  unfold Sprintf_f.
  pose proof (Z.div_mod x 1000 ltac:(lia)).
  pose proof (Z.mod_pos_bound x 1000 ltac:(lia)).
  repeat case_match; lia.
Qed.

Lemma Sprintf_f_apart (x y : Z) : x + 1000 < y → Sprintf_f x < Sprintf_f y.
Proof.
  intros Hxy.
  pose proof (Sprintf_f_bounds x). pose proof (Sprintf_f_bounds y). lia.
Qed.

(** A whole number of microseconds is printed and read back as it is. *)
Lemma Sprintf_f_whole (x : Z) :
  (1000 | x) → Sprintf_f x = x `div` 1000 ∧ parse_f (Sprintf_f x) = x.
Proof.
  intros [q ->]. unfold parse_f, Sprintf_f.
  rewrite Z.div_mul, Z.mod_mul by lia. simpl. lia.
Qed.




(** ** C9: the decision counters *)

(** With one of the two algorithms, a call that returns moves exactly one
    counter: the successful one when it allows, the failed one when it
    denies. *)
Lemma Acquire_counts_once (s : Service) (d : Redis.db) (now : Z)
    (net : Redis.exec_result) (input : gmap string value) :
  algorithm s = TokenBucket ∨ algorithm s = LeakyBucket →
  let '(s', d', r) := Acquire s d now net input in
  match r with
  | Returned _ =>
      (allowed r = true ∧
       successfulAcquires s' = Int64.incr (successfulAcquires s) ∧
       failedAcquires s' = failedAcquires s) ∨
      (allowed r = false ∧
       successfulAcquires s' = successfulAcquires s ∧
       failedAcquires s' = Int64.incr (failedAcquires s))
  | Panicked _ => s' = s
  end.
Proof.
  intros Halg. unfold Acquire.
  destruct (as_string (input !! "key")) as [key ok].
  destruct (negb ok || bool_decide (key = "")).
  { right. split; [apply allowed_deny|done]. }
  destruct Halg as [Halg|Halg]; rewrite Halg; simpl.
  - unfold acquireTokenBucket. destruct (redis_active s).
    + destruct (Redis.Exec _ _ _ _) as [d' [rs|]].
      * destruct (_ <? _); [right|left]; split;
          [apply allowed_deny|done|apply allowed_allow|done].
      * right. split; [apply allowed_deny|done].
    + destruct (LoadOrStore _ _ _) as [calls uc].
      destruct (_ <=? _); [right|left]; split;
        [apply allowed_deny|done|apply allowed_allow|done].
  - unfold acquireLeakyBucket. destruct (_ =? 0); [done|].
    destruct (LoadOrStore _ _ _) as [calls uc].
    destruct (match last _ with Some _ => _ | None => true end);
      [left|right]; split;
      [apply allowed_allow|done|apply allowed_deny|done].
Qed.

(** C9, at the input where the code departs from it.  With an algorithm
    other than the two known ones, a call with a key is denied with
    "unknown algorithm" and neither counter moves. *)
Theorem C9_unknown_algorithm_not_counted (s : Service) (d : Redis.db)
    (now : Z) (net : Redis.exec_result) (key : string) :
  key ≠ "" →
  algorithm s ≠ TokenBucket →
  algorithm s ≠ LeakyBucket →
  let '(s', d', r) := Acquire s d now net (request key) in
  r = Returned (deny_result unknown_algorithm) ∧
  allowed r = false ∧
  successfulAcquires s' = successfulAcquires s ∧
  failedAcquires s' = failedAcquires s.
Proof.
  intros Hkey Htb Hlb. rewrite Acquire_request by done.
  apply Z.eqb_neq in Htb, Hlb. rewrite Htb, Hlb.
  split; [done|]. split; [apply allowed_deny|done].
Qed.

Lemma C9_unknown_algorithm_not_counted_witness :
  let s := NewService 2 "" false in
  let res := Acquire s ∅ 0 Redis.ExecOk (request "user1") in
  res.2 = Returned (deny_result unknown_algorithm) ∧
  successfulAcquires res.1.1 = 0 ∧ failedAcquires res.1.1 = 0.
Proof.
  intros s res.
  pose proof (C9_unknown_algorithm_not_counted s ∅ 0 Redis.ExecOk "user1")
    as H.
  fold res in H. destruct res as [[s' d'] r].
  destruct H as (Hr & _ & Hs & Hf); [done | done | done |].
  by repeat split.
Defined.

(** ** C6: limits that are not positive *)

Lemma getLimitForKey_SetLimit (s : Service) (key : string) (lim : Z) :
  getLimitForKey (SetLimit s key lim) key = lim.
Proof. unfold getLimitForKey, SetLimit. simpl. by rewrite lookup_insert_eq. Qed.

(** The token bucket denies every call for a key whose limit is not
    positive, on either backend. *)
Lemma token_bucket_nonpositive_limit_denies (s : Service) (d : Redis.db)
    (now : Z) (net : Redis.exec_result) (key : string) :
  algorithm s = TokenBucket →
  key ≠ "" →
  getLimitForKey s key <= 0 →
  ∃ s' d' e, Acquire s d now net (request key)
             = (s', d', Returned (deny_result e)).
Proof.
  intros Halg Hkey Hlim. rewrite Acquire_request by done.
  rewrite Halg. simpl. destruct (redis_active s) eqn:Hact.
  - destruct net as [|applied].
    + destruct (acquireTokenBucket_redis s d now key Hact)
        as (s' & d' & _ & _ & _ & _ & _ & _ & Hstep).
      assert (Hsz : size (remote_set s d now key) ≠ 0%nat).
      { apply map_size_non_empty_iff, insert_non_empty. }
      destruct (_ <? _) eqn:Hcmp.
      * destruct Hstep as [-> _]. by eexists _, _, _.
      * apply Z.ltb_ge in Hcmp. lia.
    + rewrite acquireTokenBucket_redis_error by done. by eexists _, _, _.
  - destruct (acquireTokenBucket_local s d now net key Hact)
      as (s' & _ & _ & _ & _ & Hstep). simpl in Hstep.
    destruct (_ <=? _) eqn:Hcmp.
    + destruct Hstep as [-> _]. by eexists _, _, _.
    + apply Z.leb_gt in Hcmp. lia.
Qed.

(** C6, at the inputs where the code departs from it.  Under the leaky
    bucket a key whose limit was set to 0 makes [Acquire] panic on the
    division [window / limit]; a key whose limit was set below 0 has its
    first call allowed. *)
Theorem C6_leaky_bucket_nonpositive_limit (s : Service) (d : Redis.db)
    (now : Z) (net : Redis.exec_result) (key : string) (lim : Z) :
  algorithm s = LeakyBucket →
  key ≠ "" →
  (let s0 := SetLimit s key 0 in
   Acquire s0 d now net (request key)
     = (s0, d, Panicked "runtime error: integer divide by zero")) ∧
  (lim < 0 → history s key = [] →
   (Acquire (SetLimit s key lim) d now net (request key)).2
     = Returned allow_result).
Proof.
  intros Halg Hkey. split.
  - intros s0. subst s0. rewrite Acquire_request by done.
    replace (algorithm (SetLimit s key 0)) with LeakyBucket by done. simpl.
    unfold acquireLeakyBucket. by rewrite getLimitForKey_SetLimit.
  - intros Hlim Hfresh. rewrite Acquire_request by done.
    replace (algorithm (SetLimit s key lim)) with LeakyBucket by done. simpl.
    destruct (acquireLeakyBucket_step (SetLimit s key lim) now key)
      as (s' & _ & _ & _ & _ & Hstep).
    { rewrite getLimitForKey_SetLimit. lia. }
    simpl in Hstep.
    replace (history (SetLimit s key lim) key) with (@nil Z) in Hstep
      by (by rewrite <- Hfresh).
    simpl in Hstep. by destruct Hstep as [-> _].
Qed.

Lemma C6_leaky_bucket_nonpositive_limit_witness :
  let s := local_service 2 Time.Second LeakyBucket in
  (Acquire (SetLimit s "user1" 0) ∅ 0 Redis.ExecOk (request "user1")).2
    = Panicked "runtime error: integer divide by zero" ∧
  (Acquire (SetLimit s "user1" (-1)) ∅ 0 Redis.ExecOk (request "user1")).2
    = Returned allow_result.
Proof.
  intros s.
  destruct (C6_leaky_bucket_nonpositive_limit s ∅ 0 Redis.ExecOk "user1" (-1))
    as [H0 Hneg]; [reflexivity | done |].
  split.
  - simpl in H0. by rewrite H0.
  - apply Hneg; reflexivity.
Defined.

(** ** C7: the two backends side by side *)

Lemma whole_member_inj (t t' : Z) :
  whole t → whole t' → Sprintf_f t = Sprintf_f t' → t = t'.
Proof.
  intros [_ Ht] [_ Ht'] Heq.
  destruct (Sprintf_f_whole t Ht) as [_ <-].
  destruct (Sprintf_f_whole t' Ht') as [_ <-]. by rewrite Heq.
Qed.

(** A set that holds an entry for each element of a list without repeats is
    at least as large as the list. *)
Lemma size_ge_entries (z : gmap Z Z) (l : list Z) (f : Z → Z) :
  NoDup l →
  (∀ t, t ∈ l → z !! f t = Some t) →
  (length l <= size z)%nat.
Proof.
  intros Hnd Hin.
  rewrite <- (length_fmap (λ t, (f t, t)) l), <- length_map_to_list.
  apply submseteq_length, NoDup_submseteq.
  - apply NoDup_fmap_2_strong; [|done]. by intros t t' _ _ [= _ ->].
  - intros [m sc] (t & [= -> ->] & Ht)%list_elem_of_fmap.
    apply elem_of_map_to_list. by apply Hin.
Qed.

(** A set all of whose entries come from a list is no larger than it. *)
Lemma size_le_entries (z : gmap Z Z) (l : list Z) (f : Z → Z) :
  (∀ m sc, z !! m = Some sc → sc ∈ l ∧ m = f sc) →
  (size z <= length l)%nat.
Proof.
  intros Hin.
  rewrite <- (length_fmap (λ t, (f t, t)) l), <- length_map_to_list.
  apply submseteq_length, NoDup_submseteq; [apply NoDup_map_to_list|].
  intros [m sc] Hm%elem_of_map_to_list.
  destruct (Hin m sc Hm) as [Hsc ->].
  apply list_elem_of_fmap. by exists sc.
Qed.

Section SimStep.
Context (W : Z) (rk : string) (clean : bool) (h : list Z) (d : Redis.db)
        (T now : Z).
Context (HW : (1000 | W)) (Hsim : sim W rk clean h d T)
        (HT : T < now) (Hnow : whole now).

Let kept : list Z := filter (λ t, now - t < W) h.
Let z2 : gmap Z Z :=
  <[Sprintf_f now := now]>
    (pruned (parse_f (Sprintf_f (now - W)))
       (Redis.zset_of (Redis.evict now d) rk)).

Lemma window_start_whole : parse_f (Sprintf_f (now - W)) = now - W.
Proof.
  apply Sprintf_f_whole. destruct Hnow as [_ Hn].
  by apply Z.divide_sub_r.
Qed.

Lemma kept_on_server (t : Z) :
  t ∈ kept ++ [now] → z2 !! Sprintf_f t = Some t.
Proof.
  destruct Hsim as (Hnd & Hwh & Hsrv & _).
  intros [Ht| ->%list_elem_of_singleton]%elem_of_app;
    [|by apply lookup_insert_eq].
  apply list_elem_of_filter in Ht as [Hin Ht].
  destruct (Hwh t Ht) as [Hwt HtT].
  destruct (Hsrv t Ht) as [Hz He]; [lia|].
  unfold z2. rewrite lookup_insert_ne.
  2:{ intros Heq. apply whole_member_inj in Heq; [lia|done..]. }
  apply map_lookup_filter_Some. split.
  - rewrite zset_of_evict, decide_True; [done|].
    unfold alive. rewrite He. lia.
  - unfold Redis.in_score_range. simpl. rewrite window_start_whole. lia.
Qed.

Lemma kept_NoDup : NoDup (kept ++ [now]).
Proof.
  destruct Hsim as (Hnd & Hwh & _).
  apply NoDup_app. split; [by apply NoDup_filter|]. split.
  - intros t [_ Ht]%list_elem_of_filter ->%list_elem_of_singleton.
    destruct (Hwh now Ht). lia.
  - apply NoDup_singleton.
Qed.

Lemma server_from_kept (m sc : Z) :
  clean = true → z2 !! m = Some sc → sc ∈ kept ++ [now] ∧ m = Sprintf_f sc.
Proof.
  destruct Hsim as (Hnd & Hwh & _ & Hcl). intros Hc Hm.
  unfold z2 in Hm. destruct (decide (Sprintf_f now = m)) as [<-|Hne].
  - rewrite lookup_insert_eq in Hm. injection Hm as <-.
    split; [|done]. apply elem_of_app. right. by apply list_elem_of_singleton.
  - rewrite lookup_insert_ne in Hm by done.
    apply map_lookup_filter_Some in Hm as [Hm Hout].
    rewrite zset_of_evict in Hm. case_decide; [|done].
    destruct (Hcl Hc m sc Hm) as [Hsc ->]. split; [|done].
    apply elem_of_app. left. apply list_elem_of_filter. split; [|done].
    unfold Redis.in_score_range in Hout. simpl in Hout.
    rewrite window_start_whole in Hout.
    destruct (Hwh sc Hsc) as [[H0 _] _]. lia.
Qed.

(** The count the server returns, against the entries the local backend
    keeps. *)
Lemma count_ge_kept : (length kept + 1 <= size z2)%nat.
Proof.
  pose proof (size_ge_entries z2 (kept ++ [now]) Sprintf_f kept_NoDup
                kept_on_server) as H.
  rewrite length_app in H. simpl in H. lia.
Qed.

Lemma count_le_kept : clean = true → (size z2 <= length kept + 1)%nat.
Proof.
  intros Hc.
  pose proof (size_le_entries z2 (kept ++ [now]) Sprintf_f
                (λ m sc, server_from_kept m sc Hc)) as H.
  rewrite length_app in H. simpl in H. lia.
Qed.

(** The relation after the call: the local backend stored [h'], the key
    on the server is [d' !! rk]. *)
Lemma sim_after (bl : bool) (h' : list Z) (d' : Redis.db) :
  h' = (if bl then kept ++ [now] else h) →
  d' !! rk = (if W <=? 0 then None
              else Some (Redis.ZKey z2 (Some (now + W)))) →
  sim W rk (clean && bl) h' d' now.
Proof.
  intros Hh' Hd'. pose proof Hsim as (Hnd & Hwh & Hsrv & Hcl).
  assert (Hkept : ∀ t, t ∈ h' → now - t < W → t ∈ kept ++ [now]).
  { intros t Ht Hin. rewrite Hh' in Ht. destruct bl; [done|].
    apply elem_of_app. left. by apply list_elem_of_filter. }
  assert (Hset : 0 < W → Redis.zset_of d' rk = z2 ∧
                         Redis.expiry_of d' rk = Some (now + W)).
  { intros Hpos. unfold Redis.zset_of, Redis.expiry_of. rewrite Hd'.
    destruct (W <=? 0) eqn:Hle; [apply Z.leb_le in Hle; lia|done]. }
  split; [|split; [|split]].
  - rewrite Hh'. destruct bl; [apply kept_NoDup|done].
  - intros t Ht. rewrite Hh' in Ht. destruct bl.
    + apply elem_of_app in Ht as [Ht| ->%list_elem_of_singleton];
        [|split; [done|lia]].
      apply list_elem_of_filter in Ht as [_ Ht].
      destruct (Hwh t Ht). split; [done|lia].
    + destruct (Hwh t Ht). split; [done|lia].
  - intros t Ht Hin.
    assert (t <= now).
    { rewrite Hh' in Ht. destruct bl.
      - apply elem_of_app in Ht as [Ht| ->%list_elem_of_singleton]; [|lia].
        apply list_elem_of_filter in Ht as [_ Ht]. destruct (Hwh t Ht). lia.
      - destruct (Hwh t Ht). lia. }
    destruct Hset as [-> ->]; [lia|]. split; [|done].
    by apply kept_on_server, Hkept.
  - intros [Hc ->]%andb_prop m sc Hm. rewrite Hh'.
    apply server_from_kept; [done|].
    unfold Redis.zset_of in Hm. rewrite Hd' in Hm.
    destruct (W <=? 0); [by rewrite lookup_empty in Hm|done].
Qed.
End SimStep.

#[local] Arguments allowed : simpl never.

Lemma flags_serve_cons (w : world) (now : Z) (key : string)
    (reqs : list (Z * string)) :
  flags (serve w ((now, key) :: reqs)).2 =
    allowed (Acquire w.1 w.2 now Redis.ExecOk (request key)).2 ::
    flags (serve ((Acquire w.1 w.2 now Redis.ExecOk (request key)).1) reqs).2.
Proof.
  simpl. destruct (Acquire _ _ _ _ _) as [[s' d'] r]. simpl.
  by destruct (serve (s', d') reqs) as [w2 log].
Qed.

Lemma serve_sim (key : string) (ts : list Z) :
  ∀ (sL sR : Service) (dL dR : Redis.db) (clean : bool) (T : Z),
  redis_active sL = false →
  redis_active sR = true →
  algorithm sL = TokenBucket →
  algorithm sR = TokenBucket →
  key ≠ "" →
  window sR = window sL →
  getLimitForKey sR key = getLimitForKey sL key →
  duration (window sL) →
  (1000 | window sL) →
  sim (window sL) ("ratelimit:" +:+ key) clean (history sL key) dR T →
  rising_from T ts →
  Forall whole ts →
  let reqs := (λ t, (t, key)) <$> ts in
  let fl := flags (serve (sL, dL) reqs).2 in
  let fr := flags (serve (sR, dR) reqs).2 in
  (∀ i, fr !! i = Some true → fl !! i = Some true) ∧
  (clean = true →
   ∀ n, Forall (λ b, b = true) (take n fl) → take (S n) fr = take (S n) fl).
Proof.
  induction ts as [|now ts IH];
    intros sL sR dL dR clean T HactL HactR HalgL HalgR Hkey HwinR HlimR
           Hdur HW Hsim Hrise Hwhole.
  { simpl. split.
    - intros i. by rewrite lookup_nil.
    - by intros _ n _. }
  destruct Hrise as [HT Hrise]. apply Forall_cons in Hwhole as [Hnow Hwhole].
  rewrite fmap_cons. intros reqs fl fr. unfold fl, fr, reqs.
  rewrite !flags_serve_cons. simpl.
  (* the call on the local backend *)
  destruct (Acquire_local_token_bucket sL dL now Redis.ExecOk key HactL HalgL)
    as (sL1 & rl & HacqL & HcfgL & _ & HstepL).
  simpl in HstepL. rewrite recent_spec in HstepL by done.
  rewrite bool_decide_eq_true_2 in HstepL by done. simpl in HstepL.
  rewrite HacqL. simpl.
  (* the call on the shared backend *)
  rewrite (Acquire_request sR) by done. rewrite HalgR. simpl.
  destruct (acquireTokenBucket_redis sR dR now key HactR)
    as (sR1 & dR1 & HcfgR & _ & _ & Hrk & _ & _ & HstepR).
  unfold remote_set in Hrk, HstepR.
  rewrite HwinR in Hrk, HstepR. rewrite HlimR in HstepR.
  pose proof (count_ge_kept _ _ _ _ _ _ _ HW Hsim HT Hnow) as Hge.
  pose proof (count_le_kept _ _ _ _ _ _ _ HW Hsim Hnow) as Hle.
  simpl in Hge, Hle.
  pose proof (sim_after _ _ _ _ _ _ _ HW Hsim HT Hnow (allowed rl)
                (history sL1 key) dR1) as Hafter.
  simpl in Hafter.
  set (kept := filter (λ t, now - t < window sL) (history sL key)) in *.
  set (z2 := <[Sprintf_f now := now]> _) in *.
  assert (Hb : ∃ br, acquireTokenBucket sR dR now Redis.ExecOk key
                     = (sR1, dR1, br) ∧
            (allowed (Returned br) = true → allowed rl = true) ∧
            (clean = true → allowed (Returned br) = allowed rl) ∧
            history sL1 key = if allowed rl then kept ++ [now]
                              else history sL key).
  { destruct (getLimitForKey sL key <? Z.of_nat (size z2)) eqn:HcR;
      destruct (getLimitForKey sL key <=? Z.of_nat (length kept)) eqn:HcL;
      simpl in HstepL; destruct HstepL as [Hal Hh];
      destruct HstepR as [HacqR _]; eexists; (split; [exact HacqR|]);
      rewrite Hal, ?allowed_deny, ?allowed_allow;
      repeat split; try done.
    - intros Hc. specialize (Hle Hc).
      apply Z.ltb_lt in HcR. apply Z.leb_gt in HcL. lia.
    - apply Z.ltb_ge in HcR. apply Z.leb_le in HcL. lia.
    - apply Z.ltb_ge in HcR. apply Z.leb_le in HcL. lia. }
  destruct Hb as (br & HacqR & Hbl & Hbc & Hh). rewrite HacqR. simpl.
  specialize (Hafter Hh Hrk).
  destruct HcfgL as (HlL & HwL & HlsL & HcL & HuL & HaL).
  assert (HcfgL : same_config sL sL1) by by repeat split.
  destruct HcfgR as (HlR & HwR & HlsR & HcR & HuR & HaR).
  assert (HcfgR : same_config sR sR1) by by repeat split.
  destruct (IH sL1 sR1 dL dR1 (clean && allowed rl) now) as [IHB IHA].
  - by rewrite (same_config_redis sL sL1).
  - by rewrite (same_config_redis sR sR1).
  - congruence.
  - congruence.
  - done.
  - congruence.
  - by rewrite (same_config_limit sR sR1), (same_config_limit sL sL1).
  - by rewrite HwL.
  - by rewrite HwL.
  - by rewrite HwL.
  - done.
  - done.
  - split.
    + intros [|i]; simpl.
      * intros [= Hr]. f_equal. by apply Hbl.
      * apply IHB.
    + intros Hc [|n]; simpl.
      * intros _. rewrite !take_0. f_equal. by apply Hbc.
      * intros [Hl Hrest]%Forall_cons. rewrite Hbc by done. f_equal.
        apply IHA; [|done]. by rewrite Hc, Hl.
Qed.


Ltac whole_readings :=
  repeat (apply Forall_cons; split);
  [ .. | apply Forall_nil_2 ];
  (split; [ vm_compute; discriminate
          | match goal with
            | |- (1000 | ?t) => exists (t `div` 1000); reflexivity
            end ]).



(** * Further properties of the service *)

(** ** Limits and configuration *)

(** [SetLimit] then [getLimitForKey]: the key reads back the limit it was
    given, every other key reads what it read before, and a key with no
    limit of its own reads the default.  Setting a limit touches neither the
    histories nor the counters. *)
Theorem SetLimit_getLimitForKey (s : Service) (key k : string) (lim : Z) :
  getLimitForKey (SetLimit s key lim) k
    = (if decide (k = key) then lim else getLimitForKey s k) ∧
  (limits (SetLimit s key lim) !! k = None → k ≠ key ∧
     getLimitForKey (SetLimit s key lim) k = limit s) ∧
  userCalls (SetLimit s key lim) = userCalls s ∧
  successfulAcquires (SetLimit s key lim) = successfulAcquires s ∧
  failedAcquires (SetLimit s key lim) = failedAcquires s.
Proof.
  unfold getLimitForKey, SetLimit. simpl. split; [|split; [|done]].
  - case_decide as Hk.
    + subst k. by rewrite lookup_insert_eq.
    + by rewrite lookup_insert_ne.
  - intros Hnone. destruct (decide (k = key)) as [->|Hk].
    + by rewrite lookup_insert_eq in Hnone.
    + by rewrite Hnone.
Qed.

Lemma Acquire_same_config (s : Service) (d : Redis.db) (now : Z)
    (net : Redis.exec_result) (input : gmap string value) :
  same_config s (Acquire s d now net input).1.1.
Proof.
  unfold Acquire. destruct (as_string _) as [key ok].
  destruct (negb ok || _); [by repeat split|].
  destruct (algorithm s =? TokenBucket).
  - unfold acquireTokenBucket. destruct (redis_active s).
    + destruct (Redis.Exec _ _ _ _) as [d' [rs|]]; [|by repeat split].
      by destruct (_ <? _).
    + destruct (LoadOrStore _ _ _) as [calls uc]. by destruct (_ <=? _).
  - destruct (algorithm s =? LeakyBucket); [|by repeat split].
    unfold acquireLeakyBucket. destruct (_ =? 0); [by repeat split|].
    destruct (LoadOrStore _ _ _) as [calls uc].
    by destruct (match last _ with Some _ => _ | None => true end).
Qed.

(** One call of any method: the window, the default limit, the algorithm and
    the choice of backend stay, and so does the limit of every key the call
    does not set. *)
Lemma step_keeps_configuration (w : world) (c : call) :
  let s' := (step w c).1.1 in
  window s' = window w.1 ∧ limit s' = limit w.1 ∧
  algorithm s' = algorithm w.1 ∧ redis_active s' = redis_active w.1 ∧
  ∀ k, ¬ sets_limit_of k c → getLimitForKey s' k = getLimitForKey w.1 k.
Proof.
  destruct w as [s d], c as [now net input|now net key|key lim|g]; simpl.
  - pose proof (Acquire_same_config s d now net input) as Hcfg.
    destruct (Acquire s d now net input) as [[s' d'] r]. simpl in *.
    pose proof (same_config_redis s s' Hcfg) as Hr.
    pose proof (λ k, same_config_limit s s' k Hcfg) as Hlim.
    destruct Hcfg as (?&?&?&?&?&?). by repeat split.
  - by destruct (Status s d now net key) as [d' r].
  - repeat split; try done. intros k Hk. unfold getLimitForKey. simpl.
    rewrite lookup_insert_ne; [done|]. intros ->. by apply Hk.
  - done.
Qed.

(** However many calls of [Acquire], [Status], [SetLimit] and [Metrics] are
    made, the window, the default limit, the algorithm and the choice of
    backend are as at the start: no method changes them.  The limit of a key
    is as at the start unless one of the calls is a [SetLimit] for it. *)
Theorem run_keeps_configuration (w : world) (cs : list call) :
  let s' := (run w cs).1.1 in
  window s' = window w.1 ∧ limit s' = limit w.1 ∧
  algorithm s' = algorithm w.1 ∧ redis_active s' = redis_active w.1 ∧
  ∀ k, Forall (λ c, ¬ sets_limit_of k c) cs →
       getLimitForKey s' k = getLimitForKey w.1 k.
Proof.
  revert w. induction cs as [|c cs IH]; intros w; [done|]. simpl.
  pose proof (step_keeps_configuration w c) as Hs.
  destruct (step w c) as [w1 r]. specialize (IH w1).
  destruct (run w1 cs) as [w2 rs]. simpl in *.
  destruct Hs as (Hw & Hl & Ha & Hr & Hk).
  destruct IH as (Hw' & Hl' & Ha' & Hr' & Hk').
  repeat split; try congruence.
  intros k [Hc Hcs]%Forall_cons. rewrite Hk' by done. by apply Hk.
Qed.

(** ** The backend in use *)

Lemma Acquire_local_db (s : Service) (d : Redis.db) (now : Z)
    (net : Redis.exec_result) (input : gmap string value) :
  redis_active s = false ∨ algorithm s ≠ TokenBucket →
  (Acquire s d now net input).1.2 = d.
Proof.
  intros Hloc. unfold Acquire. destruct (as_string _) as [key ok].
  destruct (negb ok || _); [done|].
  destruct (algorithm s =? TokenBucket) eqn:Halg.
  - destruct Hloc as [Hloc|Hne]; [|by apply Z.eqb_eq in Halg].
    unfold acquireTokenBucket. rewrite Hloc.
    destruct (LoadOrStore _ _ _) as [calls uc]. by destruct (_ <=? _).
  - destruct (algorithm s =? LeakyBucket); [|done].
    by destruct (acquireLeakyBucket s now key) as [s' r].
Qed.

(** A service whose Redis backend is not in use (as [NewService] leaves it
    when the ping fails) never reaches the Redis server: whatever calls
    follow, the server is as it was, and the backend stays out of use. *)
Theorem local_backend_never_reaches_redis (s : Service) (d : Redis.db)
    (cs : list call) :
  redis_active s = false →
  (run (s, d) cs).1.2 = d ∧ redis_active (run (s, d) cs).1.1 = false.
Proof.
  revert s. induction cs as [|c cs IH]; intros s Hloc; [done|].
  change (run (s, d) (c :: cs))
    with (let '(w1, r) := step (s, d) c in
          let '(w2, rs) := run w1 cs in (w2, r :: rs)).
  pose proof (step_keeps_configuration (s, d) c) as (_ & _ & _ & Hr & _).
  assert (Hd : (step (s, d) c).1.2 = d).
  { destruct c as [now net input|now net key|key lim|g]; simpl.
    - pose proof (Acquire_local_db s d now net input (or_introl Hloc)) as H.
      by destruct (Acquire s d now net input) as [[s' d'] r].
    - unfold Status. by rewrite Hloc.
    - done.
    - done. }
  destruct (step (s, d) c) as [[s1 d1] r]. simpl in Hr, Hd. subst d1.
  specialize (IH s1 ltac:(congruence)).
  destruct (run (s1, d) cs) as [w2 rs]. simpl in *. done.
Qed.

Lemma local_backend_never_reaches_redis_witness :
  let s := NewService TokenBucket "" false in
  let cs := [CallAcquire 0 Redis.ExecOk (request "user1");
             CallStatus 1 Redis.ExecOk "user1";
             CallAcquire 2 (Redis.ExecErr true) (request "user2")] in
  (run (s, ∅) cs).1.2 = ∅.
Proof.
  intros s cs.
  apply (local_backend_never_reaches_redis s ∅ cs). reflexivity.
Defined.

(** Under the leaky bucket [Acquire] never reaches the Redis server, also
    when the Redis backend is in use: the server is as it was, and the
    decision and the new state of the service are the same whatever the
    server holds and whatever the network does. *)
Theorem leaky_bucket_ignores_redis (s : Service) (d d' : Redis.db) (now : Z)
    (net net' : Redis.exec_result) (input : gmap string value) :
  algorithm s = LeakyBucket →
  (Acquire s d now net input).1.2 = d ∧
  (Acquire s d' now net' input).1.1 = (Acquire s d now net input).1.1 ∧
  (Acquire s d' now net' input).2 = (Acquire s d now net input).2.
Proof.
  intros Halg. split.
  - apply Acquire_local_db. right. by rewrite Halg.
  - unfold Acquire. destruct (as_string _) as [key ok].
    destruct (negb ok || _); [done|]. rewrite Halg. simpl.
    by destruct (acquireLeakyBucket s now key) as [s' r].
Qed.

Lemma leaky_bucket_ignores_redis_witness :
  let s := redis_service 2 Time.Second LeakyBucket in
  (Acquire s ∅ 0 (Redis.ExecErr false) (request "user1")).2
    = Returned allow_result.
Proof.
  intros s.
  destruct (leaky_bucket_ignores_redis s ∅ ∅ 0 Redis.ExecOk
              (Redis.ExecErr false) (request "user1")) as (_ & _ & ->);
    reflexivity.
Defined.

(** ** Limits that are not positive, under the token bucket *)

Lemma token_bucket_nonpositive_limit_denies_witness :
  let s := SetLimit (redis_service 2 Time.Second TokenBucket) "user1" 0 in
  ∃ s' d' e, Acquire s ∅ 0 Redis.ExecOk (request "user1")
             = (s', d', Returned (deny_result e)).
Proof.
  intros s.
  apply (token_bucket_nonpositive_limit_denies s ∅ 0 Redis.ExecOk "user1");
    [reflexivity | done | vm_compute; discriminate].
Defined.

(** ** The counters over a run *)

Lemma incr_no_overflow (x : Z) :
  Int64.min_int <= x < Int64.max_int → Int64.incr x = x + 1.
Proof.
  intros Hx. unfold Int64.incr. apply wrap_id.
  unfold Int64.in_range. lia.
Qed.

Lemma count_flag_cons (b : bool) (e : Z * string * bool)
    (log : list (Z * string * bool)) :
  count_flag b (e :: log)
    = (if decide (e.2 = b) then 1 else 0) + count_flag b log.
Proof.
  unfold count_flag. rewrite filter_cons. case_decide; simpl; lia.
Qed.

Lemma count_flag_bounds (b : bool) (log : list (Z * string * bool)) :
  0 <= count_flag b log <= Z.of_nat (length log).
Proof.
  unfold count_flag. pose proof (length_filter (λ e, e.2 = b) log). lia.
Qed.

Lemma serve_length (reqs : list (Z * string)) :
  ∀ w, length (serve w reqs).2 = length reqs.
Proof.
  induction reqs as [|[now k] reqs IH]; intros w; [done|]. simpl.
  destruct (Acquire _ _ _ _ _) as [[s' d'] r]. specialize (IH (s', d')).
  destruct (serve (s', d') reqs) as [w2 log]. simpl in *. by rewrite IH.
Qed.



(** ** [Status] on the local backend *)

Lemma tokens_left_of_status_result (s : Service) (key : string) (t : Z) :
  tokens_left_of (status_result s key t) = Some t ∧
  source_of (status_result s key t) = None ∧
  tokens_left_of (<["source" := VString "redis"]> (status_result s key t))
    = Some t ∧
  source_of (<["source" := VString "redis"]> (status_result s key t))
    = Some "redis".
Proof.
  unfold tokens_left_of, source_of, status_result.
  by repeat split.
Qed.

Lemma Status_local_tokens (s : Service) (d : Redis.db) (now : Z)
    (net : Redis.exec_result) (key : string) :
  redis_active s = false →
  0 <= getLimitForKey s key <= Int64.max_int →
  Z.of_nat (length (history s key)) <= Int64.max_int →
  tokens_left_of (Status s d now net key).2
    = Some (Z.max 0 (getLimitForKey s key
                     - Z.of_nat (length (recent now (window s)
                                           (history s key))))).
Proof.
  intros Hloc HL Hlen. unfold Status. rewrite Hloc. simpl.
  unfold status_local. fold (history s key).
  set (kept := Z.of_nat (length (recent now (window s) (history s key)))).
  assert (Hk : 0 <= kept <= Int64.max_int).
  { unfold kept, recent.
    pose proof (length_filter (λ t, Time.Sub now t < window s)
                  (history s key)). lia. }
  rewrite wrap_id.
  2:{ unfold Int64.in_range, Int64.min_int, Int64.max_int in *. lia. }
  destruct (tokens_left_of_status_result s key
              (if getLimitForKey s key - kept <? 0 then 0
               else getLimitForKey s key - kept)) as (-> & _).
  f_equal. destruct (_ <? 0) eqn:Hc.
  - apply Z.ltb_lt in Hc. lia.
  - apply Z.ltb_ge in Hc. lia.
Qed.

(** On the local backend [Status] reports [max 0 (limit - kept)] tokens,
    where [kept] counts the stored calls inside the window, names no source
    and leaves the server alone; and under the token bucket it reports a
    token left exactly when [Acquire] at the same clock reading allows. *)
Theorem Status_local_agrees_with_Acquire (s : Service) (d : Redis.db)
    (now : Z) (net net' : Redis.exec_result) (key : string) :
  redis_active s = false →
  key ≠ "" →
  0 <= getLimitForKey s key <= Int64.max_int →
  Z.of_nat (length (history s key)) <= Int64.max_int →
  let kept := Z.of_nat (length (recent now (window s) (history s key))) in
  let res := Status s d now net key in
  res.1 = d ∧
  source_of res.2 = None ∧
  tokens_left_of res.2 = Some (Z.max 0 (getLimitForKey s key - kept)) ∧
  (algorithm s = TokenBucket →
   (0 < Z.max 0 (getLimitForKey s key - kept) ↔
    allowed (Acquire s d now net' (request key)).2 = true)).
Proof.
  intros Hloc Hkey HL Hlen kept res. unfold res, Status. rewrite Hloc. simpl.
  unfold status_local. fold (history s key). fold kept.
  assert (Hk : 0 <= kept <= Int64.max_int).
  { unfold kept, recent.
    pose proof (length_filter (λ t, Time.Sub now t < window s)
                  (history s key)). lia. }
  rewrite wrap_id.
  2:{ unfold Int64.in_range, Int64.min_int, Int64.max_int in *. lia. }
  destruct (tokens_left_of_status_result s key
              (if getLimitForKey s key - kept <? 0 then 0
               else getLimitForKey s key - kept)) as (Ht & Hs & _).
  split; [done|]. split; [done|]. split.
  - rewrite Ht. f_equal. destruct (_ <? 0) eqn:Hc.
    + apply Z.ltb_lt in Hc. lia.
    + apply Z.ltb_ge in Hc. lia.
  - intros Halg.
    destruct (Acquire_local_token_bucket s d now net' key Hloc Halg)
      as (s' & r & -> & _ & _ & Hstep).
    simpl in Hstep. fold kept in Hstep.
    rewrite bool_decide_eq_true_2 in Hstep by done. simpl in *.
    destruct (getLimitForKey s key <=? kept) eqn:Hc; simpl in Hstep;
      destruct Hstep as [-> _].
    + apply Z.leb_le in Hc. split; [lia|done].
    + apply Z.leb_gt in Hc. split; [done|lia].
Qed.

Lemma Status_local_agrees_with_Acquire_witness :
  let s := local_service 3 Time.Second TokenBucket in
  let w := (serve (s, ∅) [(0, "user3"); (1, "user3")]).1 in
  tokens_left_of (Status w.1 w.2 2 Redis.ExecOk "user3").2 = Some 1.
Proof.
  intros s w.
  destruct (Status_local_agrees_with_Acquire w.1 w.2 2 Redis.ExecOk
              Redis.ExecOk "user3") as (_ & _ & -> & _);
    [reflexivity | done | by vm_compute | by vm_compute | reflexivity].
Defined.

(** One sequential call on the local token bucket carries the relation
    between the stored history and the admitted calls over. *)
Lemma Acquire_window_inv (s : Service) (d : Redis.db) (key k : string)
    (A : list Z) (T now : Z) :
  redis_active s = false →
  algorithm s = TokenBucket →
  duration (window s) →
  window_inv (window s) (getLimitForKey s key) (history s key) A T →
  T <= now →
  ∃ s' r, Acquire s d now Redis.ExecOk (request k) = (s', d, r) ∧
    same_config s s' ∧
    window_inv (window s) (getLimitForKey s key) (history s' key)
      (A ++ if decide (k = key ∧ allowed r = true) then [now] else []) now.
Proof.
  intros Hloc Halg Hwin Hinv HT.
  destruct (Acquire_local_token_bucket s d now Redis.ExecOk k Hloc Halg)
    as (s1 & r & Hacq & Hcfg & Hother & Hstep).
  simpl in Hstep. rewrite recent_spec in Hstep by done.
  exists s1, r. split; [done|]. split; [done|].
  destruct (decide (k = key)) as [->|Hne].
  - destruct (bool_decide (key ≠ "") && _) eqn:Hc.
    + destruct Hstep as [Hal ->]. rewrite Hal.
      rewrite decide_True by done.
      apply andb_prop in Hc as [_ Hc]. apply negb_true_iff in Hc.
      apply Z.leb_gt in Hc. by apply (window_inv_admit _ _ _ _ T).
    + destruct Hstep as [Hal ->]. rewrite Hal.
      rewrite decide_False by (intros [_ ?]; done).
      rewrite app_nil_r. by apply (window_inv_later _ _ _ _ T).
  - rewrite decide_False by (intros [? _]; done).
    rewrite app_nil_r, Hother by done.
    by apply (window_inv_later _ _ _ _ T).
Qed.

Lemma serve_window_inv_until (key : string) (now : Z)
    (reqs : list (Z * string)) :
  ∀ (s : Service) (d : Redis.db) (A : list Z) (T : Z),
  redis_active s = false →
  algorithm s = TokenBucket →
  duration (window s) →
  window_inv (window s) (getLimitForKey s key) (history s key) A T →
  chrono_from T reqs →
  T <= now →
  Forall (λ r, r.1 <= now) reqs →
  ∃ s' log, serve (s, d) reqs = ((s', d), log) ∧
    same_config s s' ∧
    window_inv (window s) (getLimitForKey s key) (history s' key)
      (A ++ admitted key log) now.
Proof.
  induction reqs as [|[t k] reqs IH];
    intros s d A T Hloc Halg Hwin Hinv Hch HT Hle.
  - exists s, []. split; [done|]. split; [apply same_config_refl|].
    rewrite app_nil_r. by apply (window_inv_later _ _ _ _ T).
  - destruct Hch as [HTt Hch]. simpl in HTt, Hch.
    apply Forall_cons in Hle as [Htn Hle]. simpl in Htn.
    destruct (Acquire_window_inv s d key k A T t Hloc Halg Hwin Hinv HTt)
      as (s1 & r & Hacq & Hcfg & Hinv1).
    pose proof (same_config_limit s s1 key Hcfg) as Hlim.
    pose proof (same_config_redis s s1 Hcfg) as Hred.
    pose proof Hcfg as (Hl & Hw & Hls & Hc & Hu & Ha).
    destruct (IH s1 d
                (A ++ if decide (k = key ∧ allowed r = true) then [t] else [])
                t) as (s' & log & Hsrv & Hcfg' & Hinv');
      [congruence | congruence | by rewrite Hw | by rewrite Hw, Hlim
      | done | done | done |].
    exists s', ((t, k, allowed r) :: log). split; [|split].
    + simpl. rewrite Hacq. simpl in Hsrv. by rewrite Hsrv.
    + by apply (same_config_trans s s1 s').
    + rewrite admitted_cons, app_assoc.
      rewrite Hw, Hlim in Hinv'. apply Hinv'.
Qed.

(** After sequential token-bucket calls on the local backend, for a key that
    started with no history, [Status] reports the limit less the number of
    the key's allowed calls still inside the window: [L - k] tokens after
    [k] calls admitted within the window, and never a negative number. *)
Theorem Status_after_calls (s : Service) (d : Redis.db) (key : string)
    (reqs : list (Z * string)) (now : Z) (net : Redis.exec_result) :
  redis_active s = false →
  algorithm s = TokenBucket →
  key ≠ "" →
  duration (window s) →
  0 <= getLimitForKey s key <= Int64.max_int →
  history s key = [] →
  chronological reqs →
  Forall (λ r, r.1 <= now) reqs →
  let res := serve (s, d) reqs in
  let k := Z.of_nat (length (filter (λ t, now - t < window s)
                               (admitted key res.2))) in
  tokens_left_of (Status res.1.1 res.1.2 now net key).2
    = Some (getLimitForKey s key - k) ∧
  0 <= getLimitForKey s key - k.
Proof.
  intros Hloc Halg Hkey Hwin HL Hfresh Hch Hle res k.
  assert (Hinv0 : ∀ T, window_inv (window s) (getLimitForKey s key)
                         (history s key) [] T).
  { intros T. rewrite Hfresh. split; [done|].
    split; [intros a|]; unfold count_in; simpl; lia. }
  assert (HT : ∃ T, chrono_from T reqs ∧ T <= now).
  { destruct reqs as [|r reqs]; [by exists now|].
    exists r.1. apply Forall_cons in Hle as [Hr _].
    simpl. repeat split; [lia|done|done]. }
  destruct HT as (T & HchT & HTn).
  destruct (serve_window_inv_until key now reqs s d [] T Hloc Halg Hwin
              (Hinv0 T) HchT HTn Hle)
    as (s' & log & Hsrv & Hcfg & (H1 & _ & H3)).
  unfold k, res. rewrite Hsrv. simpl in *.
  pose proof (same_config_limit s s' key Hcfg) as Hlim.
  pose proof (same_config_redis s s' Hcfg) as Hred.
  pose proof Hcfg as (_ & Hw & _).
  pose proof (Status_local_tokens s' d now net key) as Ht.
  rewrite Hlim in Ht. specialize (Ht ltac:(congruence) HL ltac:(lia)).
  rewrite Ht, Hw, recent_spec, (H1 now) by (done || lia).
  pose proof (length_filter (λ t, now - t < window s) (history s' key)).
  split; [f_equal|]; lia.
Qed.

Lemma Status_after_calls_witness :
  let s := local_service 3 Time.Second TokenBucket in
  let res := serve (s, ∅) [(0, "user3"); (1, "user3")] in
  tokens_left_of (Status res.1.1 res.1.2 2 Redis.ExecOk "user3").2 = Some 1.
Proof.
  intros s res.
  destruct (Status_after_calls s ∅ "user3" [(0, "user3"); (1, "user3")] 2
              Redis.ExecOk) as [Ht _].
  - reflexivity.
  - reflexivity.
  - done.
  - unfold duration. vm_compute. split; [reflexivity | discriminate].
  - by vm_compute.
  - reflexivity.
  - vm_compute. by repeat split.
  - repeat constructor; by vm_compute.
  - fold res in Ht. rewrite Ht. reflexivity.
Defined.

(** ** [Status] on the shared backend *)

Lemma zset_of_evict_subseteq (now : Z) (d : Redis.db) (k : string) :
  Redis.zset_of (Redis.evict now d) k ⊆ Redis.zset_of d k.
Proof.
  rewrite zset_of_evict. case_decide; [done|apply map_empty_subseteq].
Qed.

Lemma pruned_subseteq (max : Z) (z : gmap Z Z) : pruned max z ⊆ z.
Proof. apply map_filter_subseteq. Qed.

(** The transaction of [statusRedis], run on the server. *)
Lemma exec_status_pipeline (s : Service) (d : Redis.db) (now : Z)
    (key : string) :
  let rk := "ratelimit:" +:+ key in
  let z1 := pruned (parse_f (Sprintf_f (now - window s)))
              (Redis.zset_of d rk) in
  ∃ r1, Redis.exec_cmds now d (status_pipeline s now key)
        = (Redis.put_zset d rk z1, [r1; Z.of_nat (size z1)]).
Proof.
  intros rk z1. unfold status_pipeline. fold rk. simpl.
  fold (pruned (parse_f (Sprintf_f (now - window s))) (Redis.zset_of d rk)).
  fold z1. rewrite zset_of_put_zset, decide_True by done. by eexists.
Qed.

(** What [Status] leaves on the server: the same for every result of the
    network, up to not having run at all. *)
Lemma Status_db (s : Service) (d : Redis.db) (now : Z)
    (net : Redis.exec_result) (key : string) :
  let rk := "ratelimit:" +:+ key in
  let z1 := pruned (parse_f (Sprintf_f (now - window s)))
              (Redis.zset_of (Redis.evict now d) rk) in
  (Status s d now net key).1 = d ∨
  (redis_active s = true ∧ net ≠ Redis.ExecErr false ∧
   (Status s d now net key).1 = Redis.put_zset (Redis.evict now d) rk z1).
Proof.
  intros rk z1. unfold Status. destruct (redis_active s); [|by left].
  unfold statusRedis, Redis.Exec.
  destruct (exec_status_pipeline s (Redis.evict now d) now key) as [r1 Hex].
  fold rk z1 in Hex.
  destruct net as [|[|]]; rewrite ?Hex; simpl; [right|right|left]; done.
Qed.

(** [Status] never adds to a sorted set on the server: every entry of every
    key after the call was there before.  On the shared backend, when the
    transaction goes through, an entry of the asked key stays if its key
    has not expired and its score is outside the range from 0 to the printed
    window start. *)
Theorem Status_only_prunes (s : Service) (d : Redis.db) (now : Z)
    (net : Redis.exec_result) (key : string) :
  (∀ k m sc, Redis.zset_of (Status s d now net key).1 k !! m = Some sc →
             Redis.zset_of d k !! m = Some sc) ∧
  (∀ m sc, redis_active s = true →
     alive now d ("ratelimit:" +:+ key) →
     Redis.zset_of d ("ratelimit:" +:+ key) !! m = Some sc →
     ¬ (0 <= sc <= parse_f (Sprintf_f (now - window s))) →
     Redis.zset_of (Status s d now Redis.ExecOk key).1
       ("ratelimit:" +:+ key) !! m = Some sc).
Proof.
  split.
  - intros k m sc.
    destruct (Status_db s d now net key) as [->|(_ & _ & ->)]; [done|].
    rewrite zset_of_put_zset. case_decide as Hk.
    + subst k. intros Hm.
      apply (lookup_weaken _ _ _ _ Hm).
      etrans; [apply pruned_subseteq|apply zset_of_evict_subseteq].
    + intros Hm. by apply (lookup_weaken _ _ _ _ Hm),
                          zset_of_evict_subseteq.
  - intros m sc Hact Hal Hm Hout.
    destruct (Status_db s d now Redis.ExecOk key) as [Hd|(_ & _ & ->)].
    + unfold Status, statusRedis, Redis.Exec in *. rewrite Hact in *.
      destruct (exec_status_pipeline s (Redis.evict now d) now key)
        as [r1 Hex]. rewrite Hex in *. simpl in *.
      rewrite zset_of_put_zset, decide_True by done.
      apply map_lookup_filter_Some. split; [|done].
      by rewrite zset_of_evict, decide_True.
    + rewrite zset_of_put_zset, decide_True by done.
      apply map_lookup_filter_Some. split; [|done].
      by rewrite zset_of_evict, decide_True.
Qed.

Lemma remote_set_size_after_status (s : Service) (d : Redis.db) (now : Z)
    (key : string) :
  let rk := "ratelimit:" +:+ key in
  let z1 := pruned (parse_f (Sprintf_f (now - window s)))
              (Redis.zset_of (Redis.evict now d) rk) in
  (size (remote_set s (Redis.put_zset (Redis.evict now d) rk z1) now key)
     <= S (size z1))%nat.
Proof.
  intros rk z1. unfold remote_set. fold rk.
  set (y := pruned _ (Redis.zset_of (Redis.evict now _) rk)).
  assert (size y <= size z1)%nat.
  { apply map_subseteq_size. unfold y.
    etrans; [apply pruned_subseteq|].
    etrans; [apply zset_of_evict_subseteq|].
    by rewrite zset_of_put_zset, decide_True. }
  rewrite map_size_insert. destruct (y !! Sprintf_f now); simpl; lia.
Qed.

(** On the shared backend, when the transaction goes through, [Status]
    answers from Redis with between 0 and [limit] tokens; and when it
    reports a token left, the token-bucket [Acquire] that follows at the
    same clock reading is allowed. *)
Theorem Status_redis_token_then_Acquire (s : Service) (d : Redis.db)
    (now : Z) (key : string) :
  redis_active s = true →
  algorithm s = TokenBucket →
  key ≠ "" →
  0 <= getLimitForKey s key <= Int64.max_int →
  Z.of_nat (size (Redis.zset_of d ("ratelimit:" +:+ key))) <= Int64.max_int →
  let st := Status s d now Redis.ExecOk key in
  source_of st.2 = Some "redis" ∧
  ∃ t, tokens_left_of st.2 = Some t ∧
       0 <= t <= getLimitForKey s key ∧
       (0 < t →
        (Acquire s st.1 now Redis.ExecOk (request key)).2
          = Returned allow_result).
Proof.
  intros Hact Halg Hkey HL Hsz st. unfold st, Status. rewrite Hact.
  unfold statusRedis, Redis.Exec.
  destruct (exec_status_pipeline s (Redis.evict now d) now key) as [r1 Hex].
  rewrite Hex. simpl.
  set (rk := "ratelimit:" +:+ key) in *.
  set (z1 := pruned _ (Redis.zset_of (Redis.evict now d) rk)) in *.
  assert (Hz1 : Z.of_nat (size z1) <= Int64.max_int).
  { assert (size z1 <= size (Redis.zset_of d rk))%nat; [|lia].
    apply map_subseteq_size.
    etrans; [apply pruned_subseteq|apply zset_of_evict_subseteq]. }
  rewrite wrap_id.
  2:{ unfold Int64.in_range, Int64.min_int, Int64.max_int in *. lia. }
  set (t := if getLimitForKey s key - Z.of_nat (size z1) <? 0 then 0
            else getLimitForKey s key - Z.of_nat (size z1)).
  destruct (tokens_left_of_status_result s key t) as (_ & _ & Ht & Hs).
  split; [done|]. exists t. split; [done|].
  assert (Htv : t = Z.max 0 (getLimitForKey s key - Z.of_nat (size z1))).
  { unfold t. destruct (_ <? 0) eqn:Hc;
      [apply Z.ltb_lt in Hc|apply Z.ltb_ge in Hc]; lia. }
  split; [lia|]. intros Hpos.
  rewrite Acquire_request by done. rewrite Halg. simpl.
  destruct (acquireTokenBucket_redis s
              (Redis.put_zset (Redis.evict now d) rk z1) now key Hact)
    as (s' & d' & _ & _ & _ & _ & _ & _ & Hstep).
  pose proof (remote_set_size_after_status s d now key) as Hsize.
  simpl in Hsize. fold rk z1 in Hsize.
  destruct (getLimitForKey s key <? Z.of_nat (size (remote_set s _ now key)))
    eqn:Hc.
  - apply Z.ltb_lt in Hc. lia.
  - by destruct Hstep as [-> _].
Qed.

Lemma Status_redis_token_then_Acquire_witness :
  let s := redis_service 2 Time.Second TokenBucket in
  let d := (Acquire s ∅ 0 Redis.ExecOk (request "redisuser2")).1.2 in
  let st := Status s d 1 Redis.ExecOk "redisuser2" in
  tokens_left_of st.2 = Some 1 ∧
  (Acquire s st.1 1 Redis.ExecOk (request "redisuser2")).2
    = Returned allow_result.
Proof.
  intros s d st.
  destruct (Status_redis_token_then_Acquire s d 1 "redisuser2")
    as (_ & t & Ht & _ & Hacq);
    [reflexivity | reflexivity | done | by vm_compute | by vm_compute |].
  fold st in Ht, Hacq. split; [reflexivity|].
  apply Hacq. assert (Some t = Some 1) as [= ->] by (by rewrite <- Ht).
  done.
Defined.

(** ** The sliding window on the shared backend *)

Lemma serve_log_shape (reqs : list (Z * string)) :
  ∀ w, (serve w reqs).2
       = zip_with (λ r b, (r.1, r.2, b)) reqs (flags (serve w reqs).2).
Proof.
  induction reqs as [|[now k] reqs IH]; intros w; [done|]. simpl.
  destruct (Acquire _ _ _ _ _) as [[s' d'] r]. specialize (IH (s', d')).
  destruct (serve (s', d') reqs) as [w2 log]. simpl in *. by rewrite <- IH.
Qed.

Lemma flags_length (reqs : list (Z * string)) (w : world) :
  length (flags (serve w reqs).2) = length reqs.
Proof. unfold flags. by rewrite length_fmap, serve_length. Qed.

Lemma count_in_app (a len : Z) (l1 l2 : list Z) :
  count_in a len (l1 ++ l2) = (count_in a len l1 + count_in a len l2)%nat.
Proof. unfold count_in. by rewrite filter_app, length_app. Qed.

(** Logs of the same requests: where every call allowed in the first log is
    allowed in the second, no interval holds more admitted calls of the
    first than of the second. *)
Lemma count_in_admitted_mono (key : string) (a len : Z)
    (reqs : list (Z * string)) :
  ∀ fr fl : list bool,
  length fr = length reqs →
  length fl = length reqs →
  (∀ i, fr !! i = Some true → fl !! i = Some true) →
  (count_in a len (admitted key (zip_with (λ r b, (r.1, r.2, b)) reqs fr))
   <= count_in a len
        (admitted key (zip_with (λ r b, (r.1, r.2, b)) reqs fl)))%nat.
Proof.
  induction reqs as [|[t k] reqs IH]; intros fr fl Hr Hl Himp; [done|].
  destruct fr as [|br fr]; [done|]. destruct fl as [|bl fl]; [done|].
  simpl in Hr, Hl. simpl zip_with. rewrite !admitted_cons, !count_in_app.
  specialize (IH fr fl ltac:(lia) ltac:(lia) (λ i, Himp (S i))).
  pose proof (Himp 0%nat) as H0. simpl in H0.
  destruct br.
  - assert (bl = true) as -> by (by injection (H0 eq_refl)). lia.
  - rewrite (decide_False (P := k = key ∧ false = true))
      by (by intros [_ ?]).
    unfold count_in at 1. simpl. lia.
Qed.

Lemma rising_chrono (key : string) (ts : list Z) :
  ∀ T, rising_from T ts → chrono_from T ((λ t, (t, key)) <$> ts).
Proof.
  induction ts as [|t ts IH]; intros T; [done|].
  intros [HT Hr]. simpl. split; [lia|by apply IH].
Qed.



(** ** The leaky bucket with a negative limit *)

Lemma sat_nonneg (z : Z) : 0 <= z → 0 <= Int64.sat z.
Proof.
  unfold Int64.sat, Int64.min_int, Int64.max_int. intros Hz.
  repeat case_match; lia.
Qed.

Lemma quot_negative_limit (w l : Z) :
  duration w → 0 <= w → l < 0 → Int64.quot w l <= 0.
Proof.
  unfold duration, Int64.quot. intros Hw H0 Hl.
  assert (Hq : - w <= Z.quot w l <= 0).
  { rewrite <- (Z.opp_involutive l), Z.quot_opp_r by lia.
    assert (0 <= Z.quot w (- l)) by (apply Z.quot_pos; lia).
    assert (Z.quot w (- l) <= w)
      by (apply Z.quot_le_upper_bound; [lia|nia]).
    lia. }
  rewrite wrap_id; [lia|].
  unfold Int64.in_range, Int64.min_int, Int64.max_int in *. lia.
Qed.

(** One leaky-bucket call for a key whose limit is negative, no stored
    call being later than [now]: it is allowed. *)
Lemma Acquire_leaky_negative_limit (s : Service) (d : Redis.db) (now : Z)
    (key : string) :
  algorithm s = LeakyBucket →
  key ≠ "" →
  duration (window s) →
  0 <= window s →
  getLimitForKey s key < 0 →
  (∀ t, t ∈ history s key → t <= now) →
  ∃ s', Acquire s d now Redis.ExecOk (request key)
        = (s', d, Returned allow_result) ∧
    same_config s s' ∧
    (∀ t, t ∈ history s' key → t <= now).
Proof.
  intros Halg Hkey Hdur HW HL Hle.
  rewrite Acquire_request by done. rewrite Halg. simpl.
  destruct (acquireLeakyBucket_step s now key) as
    (s' & Hcfg & _ & _ & _ & Hstep); [lia|]. simpl in Hstep.
  assert (Hok : match last (recent now (window s) (history s key)) with
                | Some t =>
                    Int64.quot (window s) (getLimitForKey s key)
                      <=? Time.Sub now t
                | None => true
                end = true).
  { destruct (last _) as [t|] eqn:Hlast; [|done].
    apply last_Some_elem_of in Hlast.
    apply list_elem_of_filter in Hlast as [_ Ht]. specialize (Hle t Ht).
    apply Z.leb_le.
    pose proof (quot_negative_limit _ _ Hdur HW HL).
    pose proof (sat_nonneg (now - t) ltac:(lia)). unfold Time.Sub. lia. }
  rewrite Hok in Hstep. destruct Hstep as (-> & Hh & _).
  exists s'. split; [done|]. split; [done|].
  intros t. rewrite Hh.
  intros [Ht| ->%list_elem_of_singleton]%elem_of_app; [|lia].
  apply list_elem_of_filter in Ht as [_ Ht]. by apply Hle.
Qed.

Lemma serve_leaky_negative_limit (key : string) (reqs : list (Z * string)) :
  ∀ (s : Service) (d : Redis.db) (T : Z),
  algorithm s = LeakyBucket →
  key ≠ "" →
  duration (window s) →
  0 <= window s →
  getLimitForKey s key < 0 →
  (∀ t, t ∈ history s key → t <= T) →
  chrono_from T reqs →
  Forall (λ e, e.1.2 = key → e.2 = true) (serve (s, d) reqs).2.
Proof.
  induction reqs as [|[now k] reqs IH];
    intros s d T Halg Hkey Hdur HW HL Hle Hch; [by apply Forall_nil_2|].
  destruct Hch as [HT Hch]. simpl in HT, Hch.
  assert (Hstep : ∃ s1 r, Acquire s d now Redis.ExecOk (request k)
                          = (s1, d, r) ∧ same_config s s1 ∧
            (k = key → allowed r = true) ∧
            (∀ t, t ∈ history s1 key → t <= now)).
  { destruct (decide (k = key)) as [->|Hne].
    - destruct (Acquire_leaky_negative_limit s d now key Halg Hkey Hdur HW HL)
        as (s1 & Hacq & Hcfg & Hle1).
      { intros t Ht. specialize (Hle t Ht). lia. }
      exists s1, (Returned allow_result).
      split; [done|]. split; [done|]. split; [by intros _|done].
    - destruct (Acquire_leaky_bucket_frame s d now Redis.ExecOk k Halg)
        as (s1 & r & Hacq & Hcfg & Hother).
      exists s1, r. split; [done|]. split; [done|]. split; [done|].
      intros t. rewrite Hother by done. intros Ht.
      specialize (Hle t Ht). lia. }
  destruct Hstep as (s1 & r & Hacq & Hcfg & Hal & Hle1).
  pose proof (same_config_limit s s1 key Hcfg) as Hlim.
  destruct Hcfg as (_ & Hw & _ & _ & _ & Ha).
  specialize (IH s1 d now ltac:(congruence) Hkey ltac:(by rewrite Hw)
                ltac:(by rewrite Hw) ltac:(by rewrite Hlim) Hle1 Hch).
  simpl. rewrite Hacq.
  destruct (serve (s1, d) reqs) as [w2 log]. simpl in *.
  apply Forall_cons. split; [exact Hal|done].
Qed.

(** Under the leaky bucket a key whose limit is negative is not limited at
    all: in sequential calls whose clock never goes back, on a key that
    starts with no history, every call for the key is allowed. *)
Theorem leaky_bucket_negative_limit_allows (s : Service) (d : Redis.db)
    (key : string) (reqs : list (Z * string)) :
  algorithm s = LeakyBucket →
  key ≠ "" →
  duration (window s) →
  0 <= window s →
  getLimitForKey s key < 0 →
  history s key = [] →
  chronological reqs →
  Forall (λ e, e.1.2 = key → e.2 = true) (serve (s, d) reqs).2.
Proof.
  intros Halg Hkey Hdur HW HL Hfresh Hch.
  assert (Hch' : ∃ T, chrono_from T reqs).
  { destruct reqs as [|r reqs]; [by exists 0|].
    exists r.1. simpl. split; [lia|done]. }
  destruct Hch' as [T Hch'].
  apply (serve_leaky_negative_limit key reqs s d T); try done.
  intros t. rewrite Hfresh. by intros ?%elem_of_nil.
Qed.

Lemma leaky_bucket_negative_limit_allows_witness :
  let s := SetLimit (local_service 2 Time.Second LeakyBucket) "user1" (-1) in
  Forall (λ e : Z * string * bool, e.1.2 = "user1" → e.2 = true)
    (serve (s, ∅) [(0, "user1"); (1, "user1"); (2, "user1")]).2.
Proof.
  intros s.
  apply (leaky_bucket_negative_limit_allows s ∅ "user1"
           [(0, "user1"); (1, "user1"); (2, "user1")]).
  - reflexivity.
  - done.
  - unfold duration. vm_compute. split; [reflexivity | discriminate].
  - by vm_compute.
  - reflexivity.
  - reflexivity.
  - vm_compute. by repeat split.
Defined.

(** * The HTTP handlers *)

(** ** Tokens *)

Lemma Split_nonempty (s : string) (sep : ascii) : Split s sep ≠ [].
Proof.
  destruct s as [|c s]; simpl; [done|].
  case_decide; [done|]. by destruct (Split s sep).
Qed.

Lemma without_empty (sep : ascii) : without sep EmptyString.
Proof. done. Qed.

Lemma without_String (sep c : ascii) (s : string) :
  without sep (String c s) ↔ c ≠ sep ∧ without sep s.
Proof.
  unfold without. simpl. split.
  - case_decide as Hc; [done|].
    pose proof (Split_nonempty s sep).
    destruct (Split s sep) as [|piece pieces]; [done|].
    by intros [= -> ->].
  - intros [Hc ->]. by rewrite decide_False.
Qed.

(** [Split] cuts at the first separator. *)
Lemma Split_app (sep : ascii) (a b : string) :
  without sep a → Split (a +:+ String sep b) sep = a :: Split b sep.
Proof.
  induction a as [|c a IH]; intros Ha; simpl.
  - by rewrite decide_True.
  - apply without_String in Ha as [Hc Ha].
    rewrite decide_False by done. by rewrite IH.
Qed.

(** [Join] undoes [Split], and no piece holds the separator. *)
Lemma Split_Join (sep : ascii) (s : string) :
  Join (Split s sep) sep = s ∧ Forall (without sep) (Split s sep).
Proof.
  induction s as [|c s [IHj IHf]]; simpl.
  - split; [done|]. apply Forall_singleton, without_empty.
  - pose proof (Split_nonempty s sep) as Hne. case_decide as Hc.
    + subst c. split.
      * destruct (Split s sep) as [|piece pieces]; [done|].
        by rewrite <- IHj.
      * apply Forall_cons. split; [apply without_empty|done].
    + destruct (Split s sep) as [|piece pieces]; [done|].
      apply Forall_cons in IHf as [Hp Hps]. split.
      * rewrite <- IHj. by destruct pieces.
      * apply Forall_cons. split; [|done]. by apply without_String.
Qed.

(** [parseJWT] accepts a token exactly when it is three pieces without a
    dot, joined by two dots, the middle one of which decodes from base64 to
    a JSON object; the claims are those of the middle piece.  The first and
    the last piece can be anything: no signature is checked. *)
Theorem parseJWT_accepts_iff (c : codecs) (token : string)
    (claims : gmap string json) :
  parseJWT c token = Some claims ↔
  ∃ h p g, token = h +:+ "." +:+ p +:+ "." +:+ g ∧
    without "."%char h ∧ without "."%char p ∧ without "."%char g ∧
    b64decode c p ≫= unmarshal c = Some claims.
Proof.
  unfold parseJWT. split.
  - case_decide as Hlen; [|done].
    destruct (Split_Join "."%char token) as [Hj Hf].
    destruct (Split token ".") as [|h [|p [|g [|x rest]]]]; try done.
    simpl. intros Hc. exists h, p, g.
    apply Forall_cons in Hf as [Hh Hf].
    apply Forall_cons in Hf as [Hp Hf].
    apply Forall_cons in Hf as [Hg _].
    split; [by rewrite <- Hj|]. do 3 (split; [done|]).
    by destruct (b64decode c p).
  - intros (h & p & g & -> & Hh & Hp & Hg & Hc).
    change (h +:+ "." +:+ p +:+ "." +:+ g)
      with (h +:+ String "."%char (p +:+ String "."%char g)).
    rewrite !Split_app by done. rewrite Hg. simpl.
    by destruct (b64decode c p).
Qed.

(** ** Requests *)

Lemma error_of_deny (e : string) : error_of (Returned (deny_result e)) = Some e.
Proof.
  unfold error_of, deny_result.
  rewrite lookup_insert_ne by done. by rewrite lookup_singleton_eq.
Qed.

(** With a key in the request, [Acquire] does not answer that the key is
    missing. *)
Lemma Acquire_with_key_not_missing (s : Service) (d : Redis.db) (now : Z)
    (net : Redis.exec_result) (key : string) :
  key ≠ "" →
  (Acquire s d now net (request key)).2 ≠ Returned (deny_result missing_key).
Proof.
  intros Hkey. rewrite Acquire_request by done.
  assert (Hd : ∀ e, e ≠ missing_key →
            Returned (deny_result e) ≠ Returned (deny_result missing_key)).
  { intros e He H. apply (f_equal error_of) in H.
    rewrite !error_of_deny in H. by injection H. }
  assert (Ha : Returned allow_result ≠ Returned (deny_result missing_key)).
  { intros H. apply (f_equal error_of) in H.
    by rewrite error_of_deny in H. }
  destruct (algorithm s =? TokenBucket).
  - unfold acquireTokenBucket. destruct (redis_active s).
    + destruct (Redis.Exec _ _ _ _) as [d' [rs|]]; [destruct (_ <? _)|];
        simpl; first [exact Ha | by apply Hd].
    + destruct (LoadOrStore _ _ _) as [calls uc]. destruct (_ <=? _);
        simpl; first [exact Ha | by apply Hd].
  - destruct (algorithm s =? LeakyBucket).
    + unfold acquireLeakyBucket. destruct (_ =? 0); [done|].
      destruct (LoadOrStore _ _ _) as [calls uc].
      destruct (match last _ with Some _ => _ | None => true end);
        simpl; first [exact Ha | by apply Hd].
    + simpl. by apply Hd.
Qed.

(** A request whose [Authorization] header carries no accepted bearer token
    with a non-empty ["sub"] claim is answered 401 by [Handler.Acquire] and
    by [Handler.Status], and the service and the Redis server are as they
    were: such a request is not counted as a failed acquire. *)
Theorem handlers_reject_unauthenticated (c : codecs) (w : world) (now : Z)
    (net : Redis.exec_result) (auth : string) :
  (∀ key, ¬ authenticated c auth key) →
  ∃ msg,
    handler_Acquire c w now net auth
      = (w, Returned (http_Error msg StatusUnauthorized)) ∧
    handler_Status c w now net auth
      = (w, Returned (http_Error msg StatusUnauthorized)).
Proof.
  intros Hno. unfold handler_Acquire, handler_Status.
  destruct (HasPrefix auth "Bearer ") eqn:Hpre; simpl; [|by eexists].
  destruct (parseJWT c _) as [claims|] eqn:Hparse; [|by eexists].
  unfold sub_claim.
  destruct (claims !! "sub") as [[| | |key| |]|] eqn:Hsub; simpl;
    try by eexists.
  destruct (bool_decide (key = "")) eqn:Hkey; [by eexists|].
  apply bool_decide_eq_false in Hkey.
  exfalso. apply (Hno key). split; [done|]. split; [done|]. by exists claims.
Qed.

(** A request that carries an accepted bearer token whose ["sub"] claim is
    [key] gets from [Handler.Acquire] what the service decides for [key]:
    status 200 with the encoded decision, whether the decision allows or
    denies.  The service is never asked without a key. *)
Theorem handler_Acquire_authenticated (c : codecs) (w : world) (now : Z)
    (net : Redis.exec_result) (auth key : string) :
  authenticated c auth key →
  let res := Acquire w.1 w.2 now net (request key) in
  res.2 ≠ Returned (deny_result missing_key) ∧
  handler_Acquire c w now net auth =
    (res.1,
     match res.2 with
     | Returned result =>
         Returned (Response StatusOK "application/json" (encode c result))
     | Panicked msg => Panicked msg
     end).
Proof.
  intros (Hpre & Hkey & claims & Hparse & Hsub) res.
  split; [by apply Acquire_with_key_not_missing|].
  unfold handler_Acquire. rewrite Hpre, Hparse. simpl.
  unfold sub_claim. rewrite Hsub. simpl.
  rewrite bool_decide_eq_false_2 by done. unfold res, request.
  by destruct (Acquire _ _ _ _ _) as [[s' d'] [result|msg]].
Qed.

Lemma handlers_reject_unauthenticated_witness :
  let c := Codecs Some (λ p, Some {[ "sub" := JString p ]}) (λ _, "") in
  let w := (local_service 1 Time.Second TokenBucket, ∅) in
  ∃ msg, handler_Acquire c w 0 Redis.ExecOk "Basic dXNlcjE="
         = (w, Returned (http_Error msg StatusUnauthorized)) ∧
         handler_Status c w 0 Redis.ExecOk "Basic dXNlcjE="
         = (w, Returned (http_Error msg StatusUnauthorized)).
Proof.
  intros c w.
  apply (handlers_reject_unauthenticated c w 0 Redis.ExecOk "Basic dXNlcjE=").
  intros key [Hpre _]. discriminate Hpre.
Defined.

Lemma handler_Acquire_authenticated_witness :
  let c := Codecs Some (λ p, Some {[ "sub" := JString p ]}) (λ _, "") in
  let w := (local_service 1 Time.Second TokenBucket, ∅) in
  (handler_Acquire c w 0 Redis.ExecOk "Bearer h.user1.sig").2
    = Returned (Response StatusOK "application/json" "").
Proof.
  intros c w.
  destruct (handler_Acquire_authenticated c w 0 Redis.ExecOk
              "Bearer h.user1.sig" "user1") as [_ ->].
  - split; [reflexivity|]. split; [done|].
    exists {[ "sub" := JString "user1" ]}. split; reflexivity.
  - reflexivity.
Defined.

(** ** The service behind the handlers *)

Lemma Acquire_token_bucket_returns (s : Service) (d : Redis.db) (now : Z)
    (net : Redis.exec_result) (input : gmap string value) :
  algorithm s = TokenBucket →
  ∃ result, (Acquire s d now net input).2 = Returned result.
Proof.
  intros Halg. unfold Acquire. destruct (as_string _) as [key ok].
  destruct (negb ok || _); [by eexists|]. rewrite Halg. simpl.
  destruct (acquireTokenBucket _ _ _ _ _) as [[s' d'] r]. by eexists.
Qed.

Lemma getLimitForKey_SetLimit_ne (s : Service) (key k : string) (lim : Z) :
  k ≠ key → getLimitForKey (SetLimit s key lim) k = getLimitForKey s k.
Proof.
  intros Hne. unfold getLimitForKey, SetLimit. simpl.
  by rewrite lookup_insert_ne.
Qed.

(** One request: the configuration of the service stays, and under the
    token bucket the request is answered, with 200 or 401. *)
Lemma handle_keeps_configuration (c : codecs) (w : world)
    (req : http_request) :
  same_config w.1 (handle c w req).1.1 ∧
  (algorithm w.1 = TokenBucket →
   ∃ resp, (handle c w req).2 = Returned resp ∧
           (status resp = StatusOK ∨ status resp = StatusUnauthorized)).
Proof.
  destruct w as [s d].
  destruct req as [now net auth|now net auth|g]; simpl.
  - unfold handler_Acquire.
    destruct (negb _); [split; [apply same_config_refl|by eexists; eauto]|].
    destruct (parseJWT c _) as [claims|];
      [|split; [apply same_config_refl|by eexists; eauto]].
    destruct (sub_claim claims) as [key ok].
    destruct (negb ok || _);
      [split; [apply same_config_refl|by eexists; eauto]|]. simpl.
    pose proof (Acquire_same_config s d now net {["key" := VString key]})
      as Hcfg.
    pose proof (Acquire_token_bucket_returns s d now net
                  {["key" := VString key]}) as Hret.
    destruct (Acquire _ _ _ _ _) as [[s' d'] [result|msg]]; simpl in *.
    + split; [done|]. intros _. eexists. split; [done|]. by left.
    + split; [done|]. intros Halg. by destruct (Hret Halg).
  - unfold handler_Status.
    destruct (negb _); [split; [apply same_config_refl|by eexists; eauto]|].
    destruct (parseJWT c _) as [claims|];
      [|split; [apply same_config_refl|by eexists; eauto]].
    destruct (sub_claim claims) as [key ok].
    destruct (negb ok || _);
      [split; [apply same_config_refl|by eexists; eauto]|]. simpl.
    destruct (Status s d now net key) as [d' result]. simpl.
    split; [apply same_config_refl|]. intros _. eexists.
    split; [done|]. by left.
  - split; [apply same_config_refl|]. intros _. eexists.
    split; [done|]. by left.
Qed.

Lemma handle_all_keeps_configuration (c : codecs)
    (reqs : list http_request) :
  ∀ w, algorithm w.1 = TokenBucket →
  same_config w.1 (handle_all c w reqs).1.1 ∧
  Forall (λ r, ∃ resp, r = Returned resp ∧
                 (status resp = StatusOK ∨ status resp = StatusUnauthorized))
    (handle_all c w reqs).2.
Proof.
  induction reqs as [|req reqs IH]; intros w Halg.
  { split; [apply same_config_refl|apply Forall_nil_2]. }
  change (handle_all c w (req :: reqs))
    with (let '(w1, r) := handle c w req in
          let '(w2, rs) := handle_all c w1 reqs in (w2, r :: rs)).
  destruct (handle_keeps_configuration c w req) as [Hcfg Hret].
  destruct (Hret Halg) as (resp & Hresp & Hst).
  destruct (handle c w req) as [w1 r]. simpl in Hcfg, Hresp. subst r.
  destruct (IH w1) as [Hcfg' Hall].
  { destruct Hcfg as (_ & _ & _ & _ & _ & Ha). congruence. }
  destruct (handle_all c w1 reqs) as [w2 rs]. simpl in *.
  split; [by apply (same_config_trans w.1 w1.1)|].
  apply Forall_cons. split; [by exists resp|done].
Qed.

(** In the application as [main] starts it, whatever requests the handlers
    serve: the window is one minute and the algorithm the token bucket; the
    limit is 20 for "user123", 100 for "apikey-abc" and 5 for every other
    key; and every request is answered, with status 200 or 401.  No request
    changes a limit and none makes the service panic. *)
Theorem app_configuration_is_fixed (c : codecs) (env_addr : string)
    (ping_ok : bool) (d : Redis.db) (reqs : list http_request) :
  let res := handle_all c (main_service env_addr ping_ok, d) reqs in
  window res.1.1 = Time.Minute ∧
  algorithm res.1.1 = TokenBucket ∧
  (∀ k, getLimitForKey res.1.1 k
        = if decide (k = "apikey-abc") then 100
          else if decide (k = "user123") then 20 else 5) ∧
  Forall (λ r, ∃ resp, r = Returned resp ∧
                 (status resp = StatusOK ∨ status resp = StatusUnauthorized))
    res.2.
Proof.
  intros res.
  assert (Halg : algorithm (main_service env_addr ping_ok) = TokenBucket)
    by (by destruct ping_ok).
  destruct (handle_all_keeps_configuration c reqs
              (main_service env_addr ping_ok, d) Halg) as [Hcfg Hall].
  fold res in Hcfg, Hall. simpl in Hcfg.
  pose proof (λ k, same_config_limit _ _ k Hcfg) as Hlim.
  destruct Hcfg as (_ & Hw & _ & _ & _ & Ha).
  split; [by rewrite Hw; destruct ping_ok|].
  split; [congruence|]. split; [|done].
  intros k. rewrite Hlim. unfold main_service.
  destruct (decide (k = "apikey-abc")) as [->|H1];
    [apply getLimitForKey_SetLimit|].
  rewrite getLimitForKey_SetLimit_ne by done.
  destruct (decide (k = "user123")) as [->|H2];
    [apply getLimitForKey_SetLimit|].
  rewrite getLimitForKey_SetLimit_ne by done. by destruct ping_ok.
Qed.

(** * Bursts and recovery of the token bucket *)

Lemma remote_set_size (s : Service) (d : Redis.db) (now : Z) (key : string) :
  (size (remote_set s d now key)
     <= S (size (Redis.zset_of d ("ratelimit:" +:+ key))))%nat.
Proof.
  unfold remote_set.
  set (y := pruned _ (Redis.zset_of (Redis.evict now d) _)).
  assert (size y <= size (Redis.zset_of d ("ratelimit:" +:+ key)))%nat.
  { apply map_subseteq_size. unfold y.
    etrans; [apply pruned_subseteq|apply zset_of_evict_subseteq]. }
  rewrite map_size_insert. destruct (y !! Sprintf_f now); simpl; lia.
Qed.

(** One token-bucket call for [key] while fewer than [limit] entries are
    stored for it, on either backend: it is allowed, and at most one more
    entry is stored. *)
Lemma Acquire_below_limit (s : Service) (d : Redis.db) (now : Z)
    (key : string) (n : nat) :
  algorithm s = TokenBucket →
  key ≠ "" →
  (length (history s key) <= n)%nat →
  (size (Redis.zset_of d ("ratelimit:" +:+ key)) <= n)%nat →
  Z.of_nat n < getLimitForKey s key →
  ∃ s' d', Acquire s d now Redis.ExecOk (request key)
           = (s', d', Returned allow_result) ∧
    same_config s s' ∧
    (length (history s' key) <= S n)%nat ∧
    (size (Redis.zset_of d' ("ratelimit:" +:+ key)) <= S n)%nat.
Proof.
  intros Halg Hkey Hh Hz HL. rewrite Acquire_request by done.
  rewrite Halg. simpl. destruct (redis_active s) eqn:Hact.
  - destruct (acquireTokenBucket_redis s d now key Hact)
      as (s' & d' & Hcfg & Huc & _ & Hrk & _ & _ & Hstep).
    pose proof (remote_set_size s d now key) as Hsz.
    destruct (_ <? _) eqn:Hc; [apply Z.ltb_lt in Hc; lia|].
    destruct Hstep as [-> _]. exists s', d'.
    split; [done|]. split; [done|]. split.
    + unfold history. rewrite Huc. fold (history s key). lia.
    + unfold Redis.zset_of. rewrite Hrk.
      destruct (window s <=? 0); simpl; [rewrite map_size_empty|]; lia.
  - destruct (acquireTokenBucket_local s d now Redis.ExecOk key Hact)
      as (s' & Hcfg & _ & _ & _ & Hstep). simpl in Hstep.
    pose proof (length_filter (λ t, Time.Sub now t < window s)
                  (history s key)) as Hlen.
    fold (recent now (window s) (history s key)) in Hlen.
    destruct (_ <=? _) eqn:Hc; [apply Z.leb_le in Hc; lia|].
    destruct Hstep as (-> & Hh' & _). exists s', d.
    split; [done|]. split; [done|]. split; [|lia].
    rewrite Hh', length_app. simpl. lia.
Qed.

Lemma serve_below_limit (key : string) (ts : list Z) :
  ∀ (s : Service) (d : Redis.db) (n : nat),
  algorithm s = TokenBucket →
  key ≠ "" →
  (length (history s key) <= n)%nat →
  (size (Redis.zset_of d ("ratelimit:" +:+ key)) <= n)%nat →
  Z.of_nat (n + length ts) <= getLimitForKey s key →
  Forall (λ b, b = true) (flags (serve (s, d) ((λ t, (t, key)) <$> ts)).2).
Proof.
  induction ts as [|now ts IH]; intros s d n Halg Hkey Hh Hz HL;
    [by apply Forall_nil_2|].
  rewrite fmap_cons, flags_serve_cons. simpl in HL. simpl.
  destruct (Acquire_below_limit s d now key n Halg Hkey Hh Hz ltac:(lia))
    as (s' & d' & Hacq & Hcfg & Hh' & Hz').
  rewrite Hacq. simpl. apply Forall_cons. split; [done|].
  pose proof (same_config_limit s s' key Hcfg) as Hlim.
  destruct Hcfg as (_ & _ & _ & _ & _ & Ha).
  apply (IH s' d' (S n)); [congruence | done | done | done |].
  rewrite Hlim. lia.
Qed.

(** The token bucket lets a burst through: on either backend, with nothing
    stored for the key at the start, the first [limit] calls for the key
    are all allowed, whatever their clock readings. *)
Theorem first_calls_are_allowed (s : Service) (d : Redis.db) (key : string)
    (ts : list Z) :
  algorithm s = TokenBucket →
  key ≠ "" →
  history s key = [] →
  Redis.zset_of d ("ratelimit:" +:+ key) = ∅ →
  Z.of_nat (length ts) <= getLimitForKey s key →
  Forall (λ b, b = true) (flags (serve (s, d) ((λ t, (t, key)) <$> ts)).2).
Proof.
  intros Halg Hkey Hfresh Hempty HL.
  apply (serve_below_limit key ts s d 0%nat); try done.
  - by rewrite Hfresh.
  - by rewrite Hempty, map_size_empty.
Qed.

Lemma first_calls_are_allowed_witness :
  Forall (λ b, b = true)
    (flags (serve (redis_service 2 Time.Second TokenBucket, ∅)
              ((λ t, (t, "redisuser1")) <$> [5; 5])).2).
Proof.
  apply (first_calls_are_allowed
           (redis_service 2 Time.Second TokenBucket) ∅ "redisuser1" [5; 5]);
    [reflexivity | done | reflexivity | reflexivity | by vm_compute].
Defined.

(** The token bucket recovers: with a positive limit, a call that finds
    every stored call of the key at least one window old (local backend),
    or every entry of the key's set scored between 0 and the printed window
    start (shared backend), is allowed.  On the shared backend this
    includes the entries left by denied calls. *)
Theorem token_bucket_recovers (s : Service) (d : Redis.db) (now : Z)
    (key : string) :
  algorithm s = TokenBucket →
  key ≠ "" →
  duration (window s) →
  0 < getLimitForKey s key →
  (∀ t, t ∈ history s key → window s <= now - t) →
  (∀ m sc, Redis.zset_of d ("ratelimit:" +:+ key) !! m = Some sc →
           0 <= sc <= parse_f (Sprintf_f (now - window s))) →
  (Acquire s d now Redis.ExecOk (request key)).2 = Returned allow_result.
Proof.
  intros Halg Hkey Hdur HL Hold Hscores. rewrite Acquire_request by done.
  rewrite Halg. simpl. destruct (redis_active s) eqn:Hact.
  - destruct (acquireTokenBucket_redis s d now key Hact)
      as (s' & d' & _ & _ & _ & _ & _ & _ & Hstep).
    assert (Hp : pruned (parse_f (Sprintf_f (now - window s)))
                   (Redis.zset_of (Redis.evict now d)
                      ("ratelimit:" +:+ key)) = ∅).
    { apply map_empty. intros m. apply map_lookup_filter_None. right.
      intros sc Hm Hout. apply Hout.
      apply (Hscores m sc), (lookup_weaken _ _ _ _ Hm),
        zset_of_evict_subseteq. }
    unfold remote_set in Hstep. rewrite Hp in Hstep.
    rewrite map_size_insert, lookup_empty, map_size_empty in Hstep.
    simpl in Hstep.
    destruct (_ <? _) eqn:Hc; [apply Z.ltb_lt in Hc; lia|].
    by destruct Hstep as [-> _].
  - destruct (acquireTokenBucket_local s d now Redis.ExecOk key Hact)
      as (s' & _ & _ & _ & _ & Hstep). simpl in Hstep.
    rewrite recent_spec in Hstep by done.
    assert (Hk : filter (λ t, now - t < window s) (history s key) = []).
    { destruct (filter _ (history s key)) as [|t l] eqn:Hf; [done|].
      assert (Hin : t ∈ filter (λ t, now - t < window s) (history s key))
        by (rewrite Hf; apply list_elem_of_here).
      apply list_elem_of_filter in Hin as [Hlt Hin].
      specialize (Hold t Hin). lia. }
    rewrite Hk in Hstep. simpl in Hstep.
    destruct (_ <=? _) eqn:Hc; [apply Z.leb_le in Hc; lia|].
    by destruct Hstep as [-> _].
Qed.

Lemma token_bucket_recovers_witness :
  let ms := Time.Millisecond in
  let s := (serve (local_service 1 Time.Second TokenBucket, ∅)
              [(1000 * ms, "u"); (1600 * ms, "u")]).1.1 in
  (Acquire s ∅ (2000 * ms) Redis.ExecOk (request "u")).2
    = Returned allow_result.
Proof.
  intros ms s.
  apply (token_bucket_recovers s ∅ (2000 * ms) "u").
  - reflexivity.
  - done.
  - unfold duration. vm_compute. split; [reflexivity | discriminate].
  - reflexivity.
  - intros t Ht.
    assert (Hh : history s "u" = [1000 * ms]) by reflexivity.
    rewrite Hh in Ht. apply list_elem_of_singleton in Ht as ->.
    by vm_compute.
  - intros m sc Hm. discriminate Hm.
Defined.
